(** * Sample-size determination for a two-proportion test

    A shallow embedding of [sample_size_determination.py]: the functions
    [power] and [experiment_size], together with the parts of numpy,
    scipy.stats and matplotlib they call.

    Number model.  The program is embedded twice.

    - In exact arithmetic ([power], [experiment_size]).  A Python [float]
      and a numpy [float64] are real numbers extended with the three
      special values of IEEE arithmetic ([inf], [-inf], [nan]), and
      scipy's [ndtr] and [ndtri] are the functions they approximate.
      Rounding, overflow, underflow and the sign of zero are absent.  A
      Python [int] is a [Z].

    - In binary64 arithmetic ([F64.power], [F64.experiment_size]).  Every
      operation is the IEEE operation on the kernel's floats, and [ndtr]
      and [ndtri] are parameters.  This embedding is evaluated at the
      edges of the domain, where the source departs from exact
      arithmetic: [1 - alpha] is [1.0] for a tiny [alpha], the product
      [(1 / n) * variance] underflows to [0.0], and nothing finite comes
      out.

    The properties proved for ranges of inputs are stated on ranges that
    stay clear of those edges (probabilities in [0.01, 0.99], sample
    sizes up to [10 ^ 9]) and, where a value is compared, with the
    tolerance [1e-6], which is several orders of magnitude above the
    rounding error of the source on these ranges.

    Effects.  A call either returns a value or raises; the calls made on
    matplotlib.pyplot are appended to a log and do not raise. *)

From Stdlib Require Import Reals Lra Lia ZArith QArith Qreals.
From Stdlib Require Import List Bool String Classical.
From Stdlib Require Import Zfloor.
From Stdlib Require Floats.
Import ListNotations.

Local Open Scope R_scope.

(** ** numpy float64 values, in exact arithmetic *)

Inductive npfloat : Type :=
| Fin (x : R)
| PInf
| NInf
| NaN.

(** Sign of a real number, as a three-way comparison with zero. *)
Definition Rsign (x : R) : comparison :=
  match total_order_T x 0 with
  | inleft (left _) => Lt
  | inleft (right _) => Eq
  | inright _ => Gt
  end.

(** The infinity of a given sign; a zero sign stands for an invalid
    operation ([0 * inf], [0 / 0]). *)
Definition inf_signed (s : comparison) : npfloat :=
  match s with
  | Gt => PInf
  | Lt => NInf
  | Eq => NaN
  end.

Definition fopp (a : npfloat) : npfloat :=
  match a with
  | Fin x => Fin (- x)
  | PInf => NInf
  | NInf => PInf
  | NaN => NaN
  end.

Definition fadd (a b : npfloat) : npfloat :=
  match a, b with
  | NaN, _ | _, NaN => NaN
  | Fin x, Fin y => Fin (x + y)
  | PInf, NInf | NInf, PInf => NaN
  | PInf, _ | _, PInf => PInf
  | NInf, _ | _, NInf => NInf
  end.

Definition fsub (a b : npfloat) : npfloat := fadd a (fopp b).

Definition fmul (a b : npfloat) : npfloat :=
  match a, b with
  | NaN, _ | _, NaN => NaN
  | Fin x, Fin y => Fin (x * y)
  | Fin x, PInf | PInf, Fin x => inf_signed (Rsign x)
  | Fin x, NInf | NInf, Fin x => inf_signed (CompOpp (Rsign x))
  | PInf, PInf | NInf, NInf => PInf
  | PInf, NInf | NInf, PInf => NInf
  end.

(** numpy's true division: a zero divisor gives an infinity or [nan]
    (with a warning), never an exception. *)
Definition fdiv (a b : npfloat) : npfloat :=
  match a, b with
  | NaN, _ | _, NaN => NaN
  | Fin x, Fin y =>
      if Req_EM_T y 0 then inf_signed (Rsign x) else Fin (x / y)
  | Fin _, PInf | Fin _, NInf => Fin 0
  | PInf, Fin y => if Rlt_dec y 0 then NInf else PInf
  | NInf, Fin y => if Rlt_dec y 0 then PInf else NInf
  | PInf, PInf | PInf, NInf | NInf, PInf | NInf, NInf => NaN
  end.

(** [x ** 2] *)
Definition fsquare (a : npfloat) : npfloat := fmul a a.

(** [np.sqrt]: [nan] on a negative argument (with a warning). *)
Definition np_sqrt (a : npfloat) : npfloat :=
  match a with
  | Fin x => if Rlt_dec x 0 then NaN else Fin (sqrt x)
  | PInf => PInf
  | NInf => NaN
  | NaN => NaN
  end.

(** [np.ceil]: the result is still a float64. *)
Definition np_ceil (a : npfloat) : npfloat :=
  match a with
  | Fin x => Fin (IZR (Zceil x))
  | other => other
  end.

(** Comparisons; every comparison with [nan] is false. *)
Definition flt (a b : npfloat) : bool :=
  match a, b with
  | NaN, _ | _, NaN => false
  | Fin x, Fin y => if Rlt_dec x y then true else false
  | NInf, NInf => false
  | NInf, _ => true
  | _, NInf => false
  | PInf, _ => false
  | Fin _, PInf => true
  end.

Definition feq (a b : npfloat) : bool :=
  match a, b with
  | Fin x, Fin y => if Req_EM_T x y then true else false
  | PInf, PInf | NInf, NInf => true
  | _, _ => false
  end.

Definition fle (a b : npfloat) : bool := flt a b || feq a b.
Definition fge (a b : npfloat) : bool := fle b a.

(** [np.amax] of a two-element list: [nan] propagates. *)
Definition np_amax2 (a b : npfloat) : npfloat :=
  match a, b with
  | NaN, _ | _, NaN => NaN
  | _, _ => if flt a b then b else a
  end.

(** [np.linspace(start, stop, num)] for [num >= 2]: [num - 1] steps of
    [(stop - start) / (num - 1)] from [start], the last sample being set
    to [stop] itself. *)
Definition np_linspace (start stop : npfloat) (num : nat) : list npfloat :=
  let div := INR (num - 1) in
  let step := fdiv (fsub stop start) (Fin div) in
  map (fun i => fadd (fmul (Fin (INR i)) step) start) (seq 0 (num - 1))
  ++ [stop].

(** ** The standard normal distribution

    [scipy.special.ndtr] (the standard normal distribution function) and
    [ndtri] (its inverse on the open unit interval) are library code.  They
    are modelled by the functions they compute: the integral of the
    Gaussian density [exp (- t^2 / 2)], normalised by its total mass, and
    the inverse of that integral. *)

Lemma derivable_pt_lim_ext (f g : R -> R) x l :
  (forall y, f y = g y) -> derivable_pt_lim f x l -> derivable_pt_lim g x l.
Proof.
  intros Hfg Hf eps Heps. destruct (Hf eps Heps) as [delta Hd].
  exists delta. intros h Hh Hlt. rewrite <- !Hfg. now apply Hd.
Qed.

(** The unnormalised Gaussian density. *)
Definition gauss (t : R) : R := exp (- (t * t / 2)).

Lemma gauss_pos t : 0 < gauss t.
Proof. apply exp_pos. Qed.

Lemma gauss_even t : gauss (- t) = gauss t.
Proof. unfold gauss. f_equal. lra. Qed.

Lemma derivable_pt_lim_gauss t : derivable_pt_lim gauss t (- t * gauss t).
Proof.
  apply derivable_pt_lim_ext
    with (f := comp exp (opp_fct (mult_real_fct (/ 2) Rsqr))).
  - intros y. unfold comp, opp_fct, mult_real_fct, Rsqr, gauss. f_equal. lra.
  - replace (- t * gauss t) with (exp (- (t * t / 2)) * - (/ 2 * (2 * t))).
    2:{ unfold gauss. field. }
    replace (- (t * t / 2)) with (opp_fct (mult_real_fct (/ 2) Rsqr) t).
    2:{ unfold opp_fct, mult_real_fct, Rsqr. field. }
    apply derivable_pt_lim_comp.
    + apply derivable_pt_lim_opp, derivable_pt_lim_scal, derivable_pt_lim_Rsqr.
    + apply derivable_pt_lim_exp.
Qed.

Lemma continuity_gauss : continuity gauss.
Proof.
  intros t. apply derivable_continuous_pt.
  exists (- t * gauss t). apply derivable_pt_lim_gauss.
Qed.

Lemma gauss_integrable a b : Riemann_integrable gauss a b.
Proof.
  destruct (Rle_dec a b) as [Hab | Hab].
  - apply continuity_implies_RiemannInt; [assumption |].
    intros x _. apply continuity_gauss.
  - apply RiemannInt_P1, continuity_implies_RiemannInt; [lra |].
    intros x _. apply continuity_gauss.
Qed.

(** The integral of the density from [0] to [x]. *)
Definition gauss_int (x : R) : R := RiemannInt (gauss_integrable 0 x).

Lemma gauss_int_0 : gauss_int 0 = 0.
Proof. apply RiemannInt_P9. Qed.

Lemma derivable_pt_lim_gauss_int x : derivable_pt_lim gauss_int x (gauss x).
Proof.
  assert (Hab : x - 1 <= x + 1) by lra.
  assert (C0 : forall y, x - 1 <= y <= x + 1 -> continuity_pt gauss y)
    by (intros y _; apply continuity_gauss).
  pose proof (RiemannInt_P27 Hab C0 (x := x)) as HP.
  assert (Heq : forall y, x - 1 <= y <= x + 1 ->
            gauss_int y = gauss_int (x - 1) + primitive Hab (FTC_P1 Hab C0) y).
  { intros y [Hy1 Hy2]. unfold primitive.
    destruct (Rle_dec (x - 1) y) as [H1 | H1]; [| lra].
    destruct (Rle_dec y (x + 1)) as [H2 | H2]; [| lra].
    unfold gauss_int. symmetry. apply RiemannInt_P26. }
  intros eps Heps.
  destruct (HP ltac:(lra) eps Heps) as [delta Hd].
  assert (Hmin : 0 < Rmin delta 1) by (apply Rmin_pos; [apply delta | lra]).
  exists (mkposreal _ Hmin). intros h Hh Hlt. cbn [pos] in Hlt.
  assert (Hlt1 : Rabs h < delta) by (eapply Rlt_le_trans; [exact Hlt | apply Rmin_l]).
  assert (Hlt2 : Rabs h < 1) by (eapply Rlt_le_trans; [exact Hlt | apply Rmin_r]).
  apply Rabs_def2 in Hlt2.
  rewrite (Heq (x + h)), (Heq x) by lra.
  replace (gauss_int (x - 1) + primitive Hab (FTC_P1 Hab C0) (x + h)
           - (gauss_int (x - 1) + primitive Hab (FTC_P1 Hab C0) x))
    with (primitive Hab (FTC_P1 Hab C0) (x + h)
          - primitive Hab (FTC_P1 Hab C0) x) by ring.
  now apply Hd.
Qed.

(** Monotonicity from the sign of the derivative. *)
Lemma deriv_nonneg_le (f f' : R -> R) a b :
  a <= b ->
  (forall c, a <= c <= b -> derivable_pt_lim f c (f' c)) ->
  (forall c, a <= c <= b -> 0 <= f' c) ->
  f a <= f b.
Proof.
  intros [Hab | Hab] Hd Hpos; [| subst; lra].
  destruct (MVT_cor2 f f' a b Hab Hd) as [c [Hc Hin]].
  assert (0 <= f' c) by (apply Hpos; lra). nra.
Qed.

Lemma deriv_pos_lt (f f' : R -> R) a b :
  a < b ->
  (forall c, a <= c <= b -> derivable_pt_lim f c (f' c)) ->
  (forall c, a <= c <= b -> 0 < f' c) ->
  f a < f b.
Proof.
  intros Hab Hd Hpos.
  destruct (MVT_cor2 f f' a b Hab Hd) as [c [Hc Hin]].
  assert (0 < f' c) by (apply Hpos; lra). nra.
Qed.

Lemma gauss_int_increasing x y : x < y -> gauss_int x < gauss_int y.
Proof.
  intros Hxy. apply deriv_pos_lt with (f' := gauss); trivial.
  - intros c _. apply derivable_pt_lim_gauss_int.
  - intros c _. apply gauss_pos.
Qed.

Lemma gauss_int_odd x : gauss_int (- x) = - gauss_int x.
Proof.
  set (k := fun t => gauss_int t + gauss_int (- t)).
  assert (Hk : forall t, derivable_pt_lim k t ((fun _ => 0) t)).
  { intros t. unfold k.
    replace 0 with (gauss t + gauss (- t) * -1)
      by (rewrite gauss_even; ring).
    apply (derivable_pt_lim_plus gauss_int (comp gauss_int (opp_fct id))).
    - apply derivable_pt_lim_gauss_int.
    - apply derivable_pt_lim_comp.
      + apply derivable_pt_lim_opp, derivable_pt_lim_id.
      + apply derivable_pt_lim_gauss_int. }
  assert (Hconst : forall a b, a <= b -> k a = k b).
  { intros a b Hab. apply Rle_antisym.
    - apply deriv_nonneg_le with (f' := fun _ => 0); trivial; intros; lra.
    - apply Ropp_le_cancel.
      apply (deriv_nonneg_le (fun t => - k t) (fun _ => - 0)); trivial.
      + intros c _. apply (derivable_pt_lim_opp k), Hk.
      + intros; lra. }
  assert (H0 : k 0 = 0) by (unfold k; rewrite Ropp_0, gauss_int_0; lra).
  assert (Hx : k x = 0).
  { destruct (Rle_dec 0 x).
    - rewrite <- (Hconst 0 x); trivial.
    - rewrite (Hconst x 0); trivial; lra. }
  unfold k in Hx. lra.
Qed.

(** The integral is bounded: on the positive axis the density lies below
    [exp (1 / 2 - t)]. *)
Lemma gauss_int_bounded x : gauss_int x <= exp (1 / 2).
Proof.
  destruct (Rle_dec x 0) as [Hx | Hx].
  - apply Rle_trans with (gauss_int 0).
    + destruct Hx as [Hx | ->]; [left; now apply gauss_int_increasing | lra].
    + rewrite gauss_int_0. left. apply exp_pos.
  - set (h := fun t => - exp (1 / 2 - t) - gauss_int t).
    assert (Hh : h 0 <= h x).
    { apply deriv_nonneg_le with (f' := fun t => exp (1 / 2 - t) - gauss t).
      - lra.
      - intros c _. unfold h.
        apply (derivable_pt_lim_minus (fun t => - exp (1 / 2 - t)) gauss_int).
        + replace (exp (1 / 2 - c)) with (- (exp (1 / 2 - c) * (0 - 1)))
            by ring.
          apply (derivable_pt_lim_opp (comp exp (fct_cte (1 / 2) - id)%F)).
          apply derivable_pt_lim_comp; [| apply derivable_pt_lim_exp].
          apply derivable_pt_lim_minus;
            [apply derivable_pt_lim_const | apply derivable_pt_lim_id].
        + apply derivable_pt_lim_gauss_int.
      - intros c _. unfold gauss.
        assert (Hle : - (c * c / 2) <= 1 / 2 - c)
          by (pose proof (pow2_ge_0 (c - 1)); lra).
        destruct Hle as [Hlt | Heq].
        + apply exp_increasing in Hlt. lra.
        + rewrite Heq. lra. }
    unfold h in Hh. rewrite gauss_int_0 in Hh.
    replace (1 / 2 - 0) with (1 / 2) in Hh by lra.
    pose proof (exp_pos (1 / 2 - x)). lra.
Qed.

(** Half of the total mass of the density: the least upper bound of the
    integrals. *)
Definition gauss_int_range (y : R) : Prop := exists x, y = gauss_int x.

Lemma gauss_int_range_bound : bound gauss_int_range.
Proof.
  exists (exp (1 / 2)). intros y [x ->]. apply gauss_int_bounded.
Qed.

Lemma gauss_int_range_inhabited : exists y, gauss_int_range y.
Proof. exists (gauss_int 0), 0. reflexivity. Qed.

Definition half_mass : R :=
  proj1_sig (completeness gauss_int_range gauss_int_range_bound
               gauss_int_range_inhabited).

Lemma half_mass_lub : is_lub gauss_int_range half_mass.
Proof.
  unfold half_mass.
  destruct (completeness _ _ _) as [m Hm]. exact Hm.
Qed.

Lemma gauss_int_lt_half_mass x : gauss_int x < half_mass.
Proof.
  apply Rlt_le_trans with (gauss_int (x + 1)).
  - apply gauss_int_increasing. lra.
  - apply (proj1 half_mass_lub). now exists (x + 1).
Qed.

Lemma half_mass_pos : 0 < half_mass.
Proof. rewrite <- gauss_int_0. apply gauss_int_lt_half_mass. Qed.


(** Every value below the half mass is exceeded by some integral. *)
Lemma gauss_int_reaches t : t < half_mass -> exists x, t < gauss_int x.
Proof.
  intros Ht. apply NNPP. intros Hno.
  assert (Hub : is_upper_bound gauss_int_range t).
  { intros y [x ->]. destruct (Rle_dec (gauss_int x) t); trivial.
    exfalso. apply Hno. exists x. lra. }
  apply (proj2 half_mass_lub) in Hub. lra.
Qed.

(** *** The distribution function, the density and the quantile function *)

(** [scipy.special.ndtr]: the mass of the normalised density below [x]. *)
Definition ndtr (x : R) : R := 1 / 2 + gauss_int x / (2 * half_mass).

(** The standard normal density. *)
Definition npdf (x : R) : R := gauss x / (2 * half_mass).

Lemma ndtr_increasing x y : x < y -> ndtr x < ndtr y.
Proof.
  intros Hxy. unfold ndtr. pose proof half_mass_pos.
  apply Rplus_lt_compat_l, Rmult_lt_compat_r.
  - apply Rinv_0_lt_compat. lra.
  - now apply gauss_int_increasing.
Qed.


Lemma ndtr_opp x : ndtr (- x) = 1 - ndtr x.
Proof.
  unfold ndtr. rewrite gauss_int_odd. pose proof half_mass_pos. field. lra.
Qed.

Lemma derivable_pt_lim_ndtr x : derivable_pt_lim ndtr x (npdf x).
Proof.
  unfold ndtr, npdf.
  apply derivable_pt_lim_ext
    with (f := (fct_cte (1 / 2) + mult_real_fct (/ (2 * half_mass)) gauss_int)%F).
  - intros y. unfold plus_fct, fct_cte, mult_real_fct. unfold Rdiv. ring.
  - replace (gauss x / (2 * half_mass)) with (0 + / (2 * half_mass) * gauss x)
      by (unfold Rdiv; ring).
    apply derivable_pt_lim_plus.
    + apply derivable_pt_lim_const.
    + apply derivable_pt_lim_scal, derivable_pt_lim_gauss_int.
Qed.

Lemma continuity_ndtr : continuity ndtr.
Proof.
  intros x. apply derivable_continuous_pt.
  exists (npdf x). apply derivable_pt_lim_ndtr.
Qed.

Lemma ndtr_scaled x p :
  (ndtr x < p <-> gauss_int x < (2 * p - 1) * half_mass)
  /\ (p < ndtr x <-> (2 * p - 1) * half_mass < gauss_int x).
Proof.
  pose proof half_mass_pos as HL.
  assert (E : ndtr x * (2 * half_mass) = half_mass + gauss_int x)
    by (unfold ndtr; field; lra).
  repeat split; intros H.
  - assert (ndtr x * (2 * half_mass) < p * (2 * half_mass))
      by (apply Rmult_lt_compat_r; lra).
    lra.
  - apply Rmult_lt_reg_r with (2 * half_mass); lra.
  - assert (p * (2 * half_mass) < ndtr x * (2 * half_mass))
      by (apply Rmult_lt_compat_r; lra).
    lra.
  - apply Rmult_lt_reg_r with (2 * half_mass); lra.
Qed.

(** Every probability strictly between 0 and 1 is attained. *)
Lemma ndtr_surjective p : 0 < p < 1 -> exists x, ndtr x = p.
Proof.
  intros Hp. pose proof half_mass_pos as HL.
  destruct (gauss_int_reaches ((2 * p - 1) * half_mass)) as [b Hb]; [nra |].
  destruct (gauss_int_reaches ((1 - 2 * p) * half_mass)) as [a' Ha]; [nra |].
  set (a := - a').
  assert (Hpa : ndtr a < p).
  { apply ndtr_scaled. unfold a. rewrite gauss_int_odd. lra. }
  assert (Hpb : p < ndtr b).
  { apply ndtr_scaled. lra. }
  assert (Hab : a < b).
  { destruct (Rlt_dec a b); trivial.
    assert (ndtr b <= ndtr a).
    { destruct (Req_dec a b) as [-> | Hne]; [lra |].
      left. apply ndtr_increasing. lra. }
    lra. }
  destruct (IVT (fun x => ndtr x - p) a b) as [z [_ Hz]]; try lra.
  - intros x. apply (continuity_pt_minus ndtr (fct_cte p)).
    + apply continuity_ndtr.
    + apply continuity_pt_const. intros u v. reflexivity.
  - exists z. lra.
Qed.

(** The points at which the distribution function is at most [p]. *)
Definition below (p : R) (x : R) : Prop := ndtr x <= p.

Lemma below_bound p : 0 < p < 1 -> bound (below p).
Proof.
  intros Hp. destruct (ndtr_surjective p Hp) as [z Hz].
  exists z. intros x Hx. unfold below in Hx.
  destruct (Rle_dec x z); trivial.
  assert (ndtr z < ndtr x) by (apply ndtr_increasing; lra). lra.
Qed.

Lemma below_inhabited p : 0 < p < 1 -> exists x, below p x.
Proof.
  intros Hp. destruct (ndtr_surjective p Hp) as [z Hz].
  exists z. unfold below. lra.
Qed.

(** [scipy.special.ndtri] for [p] strictly between 0 and 1: the least upper
    bound of [below p].  [ppf] calls it for no other [p]; the value given
    elsewhere is a placeholder. *)
Definition ndtri (p : R) : R :=
  match Rlt_dec 0 p, Rlt_dec p 1 with
  | left H0, left H1 =>
      proj1_sig (completeness (below p) (below_bound p (conj H0 H1))
                   (below_inhabited p (conj H0 H1)))
  | _, _ => 0
  end.

Lemma ndtr_ndtri p : 0 < p < 1 -> ndtr (ndtri p) = p.
Proof.
  intros Hp. unfold ndtri.
  destruct (Rlt_dec 0 p) as [H0 | H0]; [| lra].
  destruct (Rlt_dec p 1) as [H1 | H1]; [| lra].
  destruct (completeness _ _ _) as [s [Hub Hleast]]. cbn [proj1_sig].
  destruct (ndtr_surjective p Hp) as [z Hz].
  assert (Hzs : z <= s) by (apply Hub; unfold below; lra).
  assert (Hsz : s <= z).
  { apply Hleast. intros x Hx. unfold below in Hx.
    destruct (Rle_dec x z); trivial.
    assert (ndtr z < ndtr x) by (apply ndtr_increasing; lra). lra. }
  replace s with z by lra. exact Hz.
Qed.

(** ** scipy.stats.norm *)

(** A frozen distribution [stats.norm(loc, scale)]. *)
Record rv_frozen : Type := norm { loc : npfloat; scale : npfloat }.

(** The distribution [stats.norm] with its default location and scale. *)
Definition stats_norm : rv_frozen := norm (Fin 0) (Fin 1).

(** [dist.ppf(q)]: [nan] unless the scale is positive and the location is
    a number; the end points of the support at [q = 0] and [q = 1];
    [nan] for [q] outside the unit interval. *)
Definition ppf (d : rv_frozen) (q : R) : npfloat :=
  if flt (Fin 0) (scale d) && feq (loc d) (loc d) then
    if Rlt_dec 0 q then
      if Rlt_dec q 1 then fadd (fmul (Fin (ndtri q)) (scale d)) (loc d)
      else if Req_EM_T q 1 then fadd (fmul PInf (scale d)) (loc d)
      else NaN
    else if Req_EM_T q 0 then fadd (fmul NInf (scale d)) (loc d)
    else NaN
  else NaN.

(** [dist.cdf(x)]: the argument is standardised first. *)
Definition cdf (d : rv_frozen) (x : npfloat) : npfloat :=
  if flt (Fin 0) (scale d) then
    match fdiv (fsub x (loc d)) (scale d) with
    | NaN => NaN
    | PInf => Fin 1
    | NInf => Fin 0
    | Fin t => Fin (ndtr t)
    end
  else NaN.

(** [dist.pdf(x)] *)
Definition pdf (d : rv_frozen) (x : npfloat) : npfloat :=
  if flt (Fin 0) (scale d) then
    match fdiv (fsub x (loc d)) (scale d) with
    | NaN => NaN
    | PInf | NInf => fdiv (Fin 0) (scale d)
    | Fin t => fdiv (Fin (npdf t)) (scale d)
    end
  else NaN.

(** ** Python values, exceptions and the plotting state *)

(** The sample size [n] reaches [power] either as a Python [int] or as the
    float64 that [experiment_size] returns.  A sample size of another
    type (a Python [float], whose [1 / 0.0] raises, or a numpy integer)
    is outside the embedding. *)
Inductive pynum : Type :=
| PyInt (z : Z)
| NpFloat64 (f : npfloat).

Inductive exn : Type :=
| ZeroDivisionError.

Inductive result (A : Type) : Type :=
| Ok (a : A)
| Raise (e : exn).
Arguments Ok {A} a.
Arguments Raise {A} e.

(** The calls made on [matplotlib.pyplot], with their arguments. *)
Inductive plt_call : Type :=
| plt_plot (x y : list npfloat)
| plt_vlines (x ymin ymax : npfloat) (linestyles : string)
| plt_fill_between (x y1 : list npfloat) (y2 : npfloat)
    (where_ : list bool) (alpha : R)
| plt_legend (labels : list string)
| plt_xlabel (s : string)
| plt_ylabel (s : string)
| plt_show.

(** A computation that may raise and that appends to the log of pyplot
    calls. *)
Definition Py (A : Type) : Type := list plt_call -> result A * list plt_call.

Definition ret {A} (a : A) : Py A := fun fig => (Ok a, fig).

Definition raise {A} (e : exn) : Py A := fun fig => (Raise e, fig).

Definition bind {A B} (c : Py A) (k : A -> Py B) : Py B :=
  fun fig =>
    match c fig with
    | (Ok a, fig') => k a fig'
    | (Raise e, fig') => (Raise e, fig')
    end.

Definition plt (c : plt_call) : Py unit := fun fig => (Ok tt, fig ++ [c]).

Notation "x <- c ;; k" := (bind c (fun x => k))
  (at level 61, c at next level, right associativity).
Notation "c ;; k" := (bind c (fun _ => k))
  (at level 61, right associativity).

(** Python's [1 / n]: an [int] zero raises; a float64 divides as numpy
    does.  The quotient is exact here; [F64.one_over] rounds it, to
    [0.0] from about [n = 10 ** 324] on. *)
Definition one_over (n : pynum) : Py npfloat :=
  match n with
  | PyInt z =>
      if Z.eqb z 0 then raise ZeroDivisionError else ret (Fin (1 / IZR z))
  | NpFloat64 f => ret (fdiv (Fin 1) f)
  end.

(** ** The program *)

(** The body of [if plot:] in [power]. *)
Definition power_plot (null_dist alt_dist : rv_frozen) (p_crit : npfloat)
  : Py unit :=
  let low_bound := ppf null_dist 0.01 in
  let high_bound := ppf alt_dist 0.99 in
  let x := np_linspace low_bound high_bound 201 in
  let y_null := map (pdf null_dist) x in
  let y_alt := map (pdf alt_dist) x in
  plt (plt_plot x y_null) ;;
  plt (plt_plot x y_alt) ;;
  plt (plt_vlines p_crit (Fin 0)
         (np_amax2 (pdf null_dist p_crit) (pdf alt_dist p_crit)) "--") ;;
  plt (plt_fill_between x y_null (Fin 0)
         (map (fun xi => fge xi p_crit) x) 0.5) ;;
  plt (plt_fill_between x y_alt (Fin 0)
         (map (fun xi => fle xi p_crit) x) 0.5) ;;
  plt (plt_legend ["null"%string; "alt"%string]) ;;
  plt (plt_xlabel "difference") ;;
  plt (plt_ylabel "density") ;;
  plt plt_show.

Definition power (p_null p_alt : R) (n : pynum) (alpha : R) (plot : bool)
  : Py npfloat :=
  inv_n <- one_over n ;;
  let se_null := np_sqrt (fmul inv_n (Fin (2 * p_null * (1 - p_null)))) in
  let null_dist := norm (Fin 0) se_null in
  let p_crit := ppf null_dist (1 - alpha) in
  inv_n' <- one_over n ;;
  let se_alt :=
    np_sqrt (fmul inv_n'
               (Fin (p_null * (1 - p_null) + p_alt * (1 - p_alt)))) in
  let alt_dist := norm (Fin (p_alt - p_null)) se_alt in
  let beta := cdf alt_dist p_crit in
  (if plot then power_plot null_dist alt_dist p_crit else ret tt) ;;
  ret (fsub (Fin 1) beta).

Definition experiment_size (p_null p_alt alpha beta : R) : Py npfloat :=
  let z_null := ppf stats_norm (1 - alpha) in
  let z_alt := ppf stats_norm beta in
  let sd_null := np_sqrt (Fin (2 * p_null * (1 - p_null))) in
  let sd_alt :=
    np_sqrt (Fin (p_null * (1 - p_null) + p_alt * (1 - p_alt))) in
  let p_diff := p_alt - p_null in
  let n :=
    fsquare (fdiv (fsub (fmul z_null sd_null) (fmul z_alt sd_alt))
               (Fin p_diff)) in
  ret (np_ceil n).

(** ** The program in binary64 arithmetic

    The same statements on IEEE binary64 numbers.  [power] is the numeric
    path of the source: the statements outside [if plot:], which are all
    that the value returned depends on. *)

Module F64.
Import Floats.
Set Warnings "-inexact-float".
Local Open Scope float_scope.

Inductive pynum : Type :=
| PyInt (z : Z)
| NpFloat64 (f : float).

(** A Python [int] as an exact (unnormalised) binary number. *)
Definition of_int (z : Z) : spec_float :=
  match z with
  | Z0 => S754_zero false
  | Zpos p => S754_finite false p 0
  | Zneg p => S754_finite true p 0
  end.

(** Python's [1 / n]: for an [int], zero raises and the quotient of the
    two integers is rounded once, to nearest; a float64 divides as numpy
    does. *)
Definition one_over (n : pynum) : result float :=
  match n with
  | PyInt z =>
      if Z.eqb z 0 then Raise ZeroDivisionError
      else Ok (SF2Prim (SF64div (S754_finite false 1 0) (of_int z)))
  | NpFloat64 f => Ok (1 / f)
  end.

(** [np.ceil]: infinities, [nan], zeros and numbers without a fractional
    part are returned as they are; a negative fraction above [-1] gives
    [-0.0]. *)
Definition np_ceil (x : float) : float :=
  match Prim2SF x with
  | S754_finite s m (Zneg k) =>
      let q := Z.shiftr (Zpos m) (Zpos k) in
      let whole := Z.eqb (Z.shiftl q (Zpos k)) (Zpos m) in
      if s then - SF2Prim (binary_normalize prec emax q 0 false)
      else SF2Prim (binary_normalize prec emax
                      (if whole then q else q + 1) 0 false)
  | _ => x
  end.

Section Scipy.
(** [scipy.special.ndtr] and [ndtri], as binary64 functions. *)
Variables ndtr ndtri : float -> float.

(** [stats.norm(loc, scale).ppf(q)] *)
Definition ppf (loc scale q : float) : float :=
  if (0 <? scale) && (loc =? loc) then
    if (0 <? q) && (q <? 1) then ndtri q * scale + loc
    else if q =? 0 then neg_infinity * scale + loc
    else if q =? 1 then infinity * scale + loc
    else nan
  else nan.

(** [stats.norm(loc, scale).cdf(x)] *)
Definition cdf (loc scale x : float) : float :=
  let y := (x - loc) / scale in
  if 0 <? scale then
    if is_nan y then nan
    else if infinity <=? y then 1
    else if neg_infinity <? y then ndtr y
    else 0
  else nan.

Definition power (p_null p_alt : float) (n : pynum) (alpha : float)
  : result float :=
  match one_over n with
  | Raise e => Raise e
  | Ok inv_n =>
      let se_null := sqrt (inv_n * (2 * p_null * (1 - p_null))) in
      let p_crit := ppf 0 se_null (1 - alpha) in
      let se_alt :=
        sqrt (inv_n * (p_null * (1 - p_null) + p_alt * (1 - p_alt))) in
      let beta := cdf (p_alt - p_null) se_alt p_crit in
      Ok (1 - beta)
  end.

Definition experiment_size (p_null p_alt alpha beta : float) : float :=
  let z_null := ppf 0 1 (1 - alpha) in
  let z_alt := ppf 0 1 beta in
  let sd_null := sqrt (2 * p_null * (1 - p_null)) in
  let sd_alt := sqrt (p_null * (1 - p_null) + p_alt * (1 - p_alt)) in
  let p_diff := p_alt - p_null in
  let n := (z_null * sd_null - z_alt * sd_alt) / p_diff in
  np_ceil (n * n).

End Scipy.
End F64.

(** ** Outcomes of a call *)

(** [returns c v]: the call returns [v], whatever was plotted before. *)
Definition returns {A} (c : Py A) (v : A) : Prop :=
  forall fig, fst (c fig) = Ok v.

(** [fails c]: the call ends in an exception. *)
Definition fails {A} (c : Py A) : Prop :=
  forall fig, exists e, fst (c fig) = Raise e.

(** The distribution function of the normal distribution with mean [mu]
    and scale [sigma]. *)
Definition normal_cdf (mu sigma x : R) : R :=
  ndtr ((x - mu) / sigma).

(** ** Evaluation lemmas for the numeric primitives *)

Lemma Rsign_pos x : 0 < x -> Rsign x = Gt.
Proof.
  intros Hx. unfold Rsign.
  destruct (total_order_T x 0) as [[H | H] | H]; try reflexivity; lra.
Qed.

Lemma Rsign_neg x : x < 0 -> Rsign x = Lt.
Proof.
  intros Hx. unfold Rsign.
  destruct (total_order_T x 0) as [[H | H] | H]; try reflexivity; lra.
Qed.

Lemma Rsign_zero : Rsign 0 = Eq.
Proof.
  unfold Rsign.
  destruct (total_order_T 0 0) as [[H | H] | H]; try reflexivity; lra.
Qed.

Lemma np_sqrt_Fin x : 0 <= x -> np_sqrt (Fin x) = Fin (sqrt x).
Proof.
  intros Hx. simpl. destruct (Rlt_dec x 0); [lra | reflexivity].
Qed.

Lemma np_sqrt_neg x : x < 0 -> np_sqrt (Fin x) = NaN.
Proof.
  intros Hx. simpl. destruct (Rlt_dec x 0); [reflexivity | lra].
Qed.

Lemma flt_Fin_true x y : x < y -> flt (Fin x) (Fin y) = true.
Proof.
  intros H. simpl. destruct (Rlt_dec x y); [reflexivity | lra].
Qed.

Lemma feq_Fin_refl x : feq (Fin x) (Fin x) = true.
Proof.
  simpl. destruct (Req_EM_T x x); [reflexivity | lra].
Qed.

Lemma fdiv_Fin x y : y <> 0 -> fdiv (Fin x) (Fin y) = Fin (x / y).
Proof.
  intros H. simpl. destruct (Req_EM_T y 0); [contradiction | reflexivity].
Qed.

Lemma fdiv_Fin_zero x : fdiv (Fin x) (Fin 0) = inf_signed (Rsign x).
Proof.
  simpl. destruct (Req_EM_T 0 0); [reflexivity | lra].
Qed.



Lemma ndtr_zero : ndtr 0 = 1 / 2.
Proof.
  pose proof (ndtr_opp 0) as H. rewrite Ropp_0 in H. lra.
Qed.


Lemma ndtr_le x y : x <= y -> ndtr x <= ndtr y.
Proof.
  intros [H | H]; [left; now apply ndtr_increasing | subst; lra].
Qed.

Lemma ndtr_lt_inv x y : ndtr x < ndtr y -> x < y.
Proof.
  intros H. destruct (Rlt_dec x y) as [Hlt | Hge]; trivial.
  assert (Hle : ndtr y <= ndtr x) by (apply ndtr_le; lra). lra.
Qed.



Lemma ndtri_pos p : 1 / 2 < p < 1 -> 0 < ndtri p.
Proof.
  intros Hp. apply ndtr_lt_inv.
  rewrite ndtr_zero, ndtr_ndtri; lra.
Qed.

Lemma ndtri_neg p : 0 < p < 1 / 2 -> ndtri p < 0.
Proof.
  intros Hp. apply ndtr_lt_inv.
  rewrite ndtr_zero, ndtr_ndtri; lra.
Qed.

Lemma ppf_Fin l s q :
  0 < s -> 0 < q < 1 -> ppf (norm (Fin l) (Fin s)) q = Fin (ndtri q * s + l).
Proof.
  intros Hs [Hq0 Hq1]. unfold ppf; cbn [scale loc].
  rewrite flt_Fin_true, feq_Fin_refl by assumption. cbn [andb].
  destruct (Rlt_dec 0 q); [| lra]. destruct (Rlt_dec q 1); [| lra].
  reflexivity.
Qed.

Lemma cdf_Fin l s x :
  0 < s -> cdf (norm (Fin l) (Fin s)) (Fin x) = Fin (normal_cdf l s x).
Proof.
  intros Hs. unfold cdf; cbn [scale loc].
  rewrite flt_Fin_true by assumption.
  cbn [fsub fopp fadd]. rewrite fdiv_Fin by lra. reflexivity.
Qed.

Lemma stats_norm_ppf q : 0 < q < 1 -> ppf stats_norm q = Fin (ndtri q).
Proof.
  intros Hq. unfold stats_norm. rewrite ppf_Fin by lra.
  f_equal. ring.
Qed.

(** The plotting branch never raises. *)
Lemma power_plot_ok null_dist alt_dist p_crit fig :
  fst (power_plot null_dist alt_dist p_crit fig) = Ok tt.
Proof. reflexivity. Qed.

(** Steps over the plotting branch in a goal about [power]. *)
Ltac step_plot :=
  match goal with
  | |- context [power_plot ?a ?b ?c ?f] =>
      let Hp := fresh "Hp" in
      let r := fresh "r" in
      let fig' := fresh "fig" in
      pose proof (power_plot_ok a b c f) as Hp;
      destruct (power_plot a b c f) as [r fig'];
      cbn [fst] in Hp; subst r
  end.

(** ** Closed forms on valid inputs

    What the exact-arithmetic embedding evaluates to.  The source follows
    these closed forms up to rounding as long as nothing underflows,
    overflows or is absorbed. *)

(** The value [power] computes from the reciprocal [inv] of the sample
    size. *)
Definition power_value (p_null p_alt inv alpha : R) : R :=
  1 - normal_cdf (p_alt - p_null)
        (sqrt (inv * (p_null * (1 - p_null) + p_alt * (1 - p_alt))))
        (ndtri (1 - alpha) * sqrt (inv * (2 * p_null * (1 - p_null))) + 0).

(** The real number whose ceiling [experiment_size] returns. *)
Definition size_value (p_null p_alt alpha beta : R) : R :=
  ((ndtri (1 - alpha) * sqrt (2 * p_null * (1 - p_null))
    - ndtri beta * sqrt (p_null * (1 - p_null) + p_alt * (1 - p_alt)))
   / (p_alt - p_null)) ^ 2.

Lemma var_pos p : 0 < p < 1 -> 0 < p * (1 - p).
Proof. intros Hp. nra. Qed.

Lemma one_over_int n :
  (1 <= n)%Z -> forall fig, one_over (PyInt n) fig = (Ok (Fin (1 / IZR n)), fig).
Proof.
  intros Hn fig. unfold one_over.
  destruct (Z.eqb_spec n 0); [lia | reflexivity].
Qed.


Lemma inv_int_pos n : (1 <= n)%Z -> 0 < 1 / IZR n.
Proof.
  intros Hn. apply Rdiv_lt_0_compat; [lra |].
  apply IZR_lt. lia.
Qed.

(** The standardised critical value, with the sample size factored out:
    [(z * sd_null - d * sqrt n) / sd_alt] for [inv = 1 / n]. *)
Lemma standardised_critical_value z d inv a b :
  0 < inv -> 0 < a -> 0 < b ->
  (z * sqrt (inv * a) + 0 - d) / sqrt (inv * b)
  = (z * sqrt a - d / sqrt inv) / sqrt b.
Proof.
  intros Hinv Ha Hb.
  rewrite !sqrt_mult by lra.
  pose proof (sqrt_lt_R0 _ Hinv). pose proof (sqrt_lt_R0 _ Hb).
  field. split; lra.
Qed.


(** The closed forms and their properties, for proportions strictly
    between 0 and 1. *)
Section ValidProportions.
Variables p_null p_alt : R.
Hypothesis H0 : 0 < p_null < 1.
Hypothesis H1 : 0 < p_alt < 1.

Lemma power_eval n inv alpha plot :
  (forall fig, one_over n fig = (Ok (Fin inv), fig)) ->
  0 < inv -> 0 < alpha < 1 ->
  returns (power p_null p_alt n alpha plot)
    (Fin (power_value p_null p_alt inv alpha)).
Proof.
  intros Hone Hinv Ha fig.
  pose proof (var_pos _ H0) as V0. pose proof (var_pos _ H1) as V1.
  unfold power, bind. cbv zeta. rewrite Hone.
  destruct plot; rewrite Hone; try step_plot; unfold ret; cbn [fst fmul];
    rewrite !np_sqrt_Fin by nra;
    rewrite ppf_Fin by (try apply sqrt_lt_R0; nra);
    rewrite cdf_Fin by (apply sqrt_lt_R0; nra);
    reflexivity.
Qed.

Lemma experiment_size_eval alpha beta :
  p_alt <> p_null ->
  0 < alpha < 1 -> 0 < beta < 1 ->
  returns (experiment_size p_null p_alt alpha beta)
    (Fin (IZR (Zceil (size_value p_null p_alt alpha beta)))).
Proof.
  intros Hne Ha Hb fig.
  pose proof (var_pos _ H0) as V0. pose proof (var_pos _ H1) as V1.
  unfold experiment_size, ret. cbv zeta. cbn [fst].
  rewrite !stats_norm_ppf by lra.
  rewrite !np_sqrt_Fin by nra.
  cbn [fmul fsub fopp fadd].
  rewrite fdiv_Fin by lra.
  unfold fsquare. cbn [fmul np_ceil].
  unfold size_value. repeat apply f_equal. unfold Rdiv. ring.
Qed.

Lemma power_value_eq inv alpha :
  0 < inv ->
  power_value p_null p_alt inv alpha
  = 1 - ndtr ((ndtri (1 - alpha) * sqrt (2 * p_null * (1 - p_null))
               - (p_alt - p_null) / sqrt inv)
              / sqrt (p_null * (1 - p_null) + p_alt * (1 - p_alt))).
Proof.
  intros Hinv.
  pose proof (var_pos _ H0). pose proof (var_pos _ H1).
  unfold power_value, normal_cdf.
  rewrite standardised_critical_value by nra. reflexivity.
Qed.



(** At a sample size of at least [size_value], the power reaches
    [1 - beta]. *)
Lemma power_value_at_size alpha beta N :
  p_null < p_alt ->
  0 < beta < 1 -> 0 < N -> size_value p_null p_alt alpha beta <= N ->
  1 - beta <= power_value p_null p_alt (1 / N) alpha.
Proof.
  intros Hlt Hb HN Hsize.
  pose proof (var_pos _ H0) as V0. pose proof (var_pos _ H1) as V1.
  assert (Hinv : 0 < 1 / N) by (apply Rdiv_lt_0_compat; lra).
  rewrite power_value_eq by lra.
  unfold size_value in Hsize.
  set (a := 2 * p_null * (1 - p_null)) in *.
  set (b := p_null * (1 - p_null) + p_alt * (1 - p_alt)) in *.
  set (za := ndtri (1 - alpha)) in *. set (zb := ndtri beta) in *.
  set (d := p_alt - p_null) in *.
  assert (Hd : 0 < d) by (unfold d; lra).
  assert (Hsb : 0 < sqrt b) by (apply sqrt_lt_R0; unfold b; lra).
  assert (HsN : 0 < sqrt N) by now apply sqrt_lt_R0.
  set (r := (za * sqrt a - zb * sqrt b) / d) in *.
  assert (Hr : r <= sqrt N).
  { destruct (Rle_dec r 0) as [Hneg | Hposr]; [lra |].
    rewrite <- (sqrt_pow2 r) by lra. now apply sqrt_le_1_alt. }
  assert (Hinvs : d / sqrt (1 / N) = d * sqrt N).
  { unfold Rdiv at 2. rewrite Rmult_1_l, sqrt_inv. field. lra. }
  rewrite Hinvs.
  assert (Harg : (za * sqrt a - d * sqrt N) / sqrt b <= zb).
  { apply Rmult_le_reg_r with (sqrt b); [assumption |].
    unfold Rdiv. rewrite Rmult_assoc, Rinv_l, Rmult_1_r by lra.
    assert (Hrd : r * d = za * sqrt a - zb * sqrt b)
      by (unfold r; field; lra).
    nra. }
  apply ndtr_le in Harg.
  assert (Hzb : ndtr zb = beta) by (unfold zb; now apply ndtr_ndtri).
  lra.
Qed.


End ValidProportions.

(** ** Behaviour outside the documented domain *)

Lemma returns_not_fails {A} (c : Py A) v : returns c v -> ~ fails c.
Proof.
  intros Hr Hf. destruct (Hf []) as [e He]. rewrite Hr in He. discriminate.
Qed.

Lemma experiment_size_never_fails p_null p_alt alpha beta :
  ~ fails (experiment_size p_null p_alt alpha beta).
Proof.
  intros Hf. destruct (Hf []) as [e He]. discriminate.
Qed.

(** A zero effect size: the quotient is an infinity, or [nan] when the
    numerator vanishes as well, which in exact arithmetic is when
    [1 - alpha = beta]. *)
Lemma experiment_size_zero_effect p alpha beta :
  0 < p < 1 -> 0 < alpha < 1 -> 0 < beta < 1 ->
  (1 - alpha <> beta -> returns (experiment_size p p alpha beta) PInf)
  /\ (1 - alpha = beta -> returns (experiment_size p p alpha beta) NaN).
Proof.
  intros Hp Ha Hb. pose proof (var_pos _ Hp) as V.
  assert (Hs : 0 < sqrt (2 * p * (1 - p))) by (apply sqrt_lt_R0; nra).
  assert (Heval : forall fig,
    fst (experiment_size p p alpha beta fig)
    = Ok (np_ceil (fsquare (inf_signed
        (Rsign (ndtri (1 - alpha) * sqrt (2 * p * (1 - p))
                + - (ndtri beta * sqrt (2 * p * (1 - p))))))))).
  { intros fig. unfold experiment_size, ret. cbv zeta. cbn [fst].
    rewrite !stats_norm_ppf by lra.
    replace (p * (1 - p) + p * (1 - p)) with (2 * p * (1 - p)) by ring.
    rewrite !np_sqrt_Fin by nra.
    cbn [fmul fsub fopp fadd].
    replace (p - p) with 0 by ring.
    rewrite fdiv_Fin_zero. reflexivity. }
  split; intros Hab fig; rewrite Heval.
  - destruct (Rtotal_order (ndtri (1 - alpha)) (ndtri beta))
      as [Hlt | [Heq | Hgt]].
    + rewrite Rsign_neg by nra. reflexivity.
    + exfalso. apply Hab.
      rewrite <- (ndtr_ndtri (1 - alpha)), <- (ndtr_ndtri beta) by lra.
      now rewrite Heq.
    + rewrite Rsign_pos by nra. reflexivity.
  - rewrite Hab.
    replace (ndtri beta * sqrt (2 * p * (1 - p))
             + - (ndtri beta * sqrt (2 * p * (1 - p)))) with 0 by ring.
    rewrite Rsign_zero. reflexivity.
Qed.

(** A zero effect size, whatever the other arguments: the quotient is an
    infinity or [nan], and so is the value returned. *)
Lemma experiment_size_zero_effect_size p alpha beta :
  returns (experiment_size p p alpha beta) PInf
  \/ returns (experiment_size p p alpha beta) NaN.
Proof.
  unfold returns, experiment_size, ret. cbv zeta. cbn [fst].
  replace (p - p) with 0 by ring.
  set (num := fsub _ _). clearbody num.
  destruct num as [x | | |]; cbn [fdiv].
  - destruct (Req_EM_T 0 0) as [_ | Hne]; [| contradiction].
    destruct (Rsign x); cbn; auto.
  - destruct (Rlt_dec 0 0); [lra |]. cbn. auto.
  - destruct (Rlt_dec 0 0); [lra |]. cbn. auto.
  - cbn. auto.
Qed.

(** A negative sample size: both standard errors are [nan], and so is
    the result. *)
Lemma power_negative_n p_null p_alt n alpha :
  0 < p_null < 1 -> 0 < p_alt < 1 -> (n < 0)%Z ->
  returns (power p_null p_alt (PyInt n) alpha false) NaN.
Proof.
  intros H0 H1 Hn fig.
  pose proof (var_pos _ H0) as V0. pose proof (var_pos _ H1) as V1.
  assert (Hinv : 1 / IZR n < 0).
  { apply IZR_lt in Hn. unfold Rdiv. rewrite Rmult_1_l.
    now apply Rinv_lt_0_compat. }
  unfold power, bind, one_over, ret. cbv zeta.
  destruct (Z.eqb_spec n 0); [lia |].
  cbn [fst fmul]. rewrite !np_sqrt_neg by nra. reflexivity.
Qed.

(** A zero sample size: the division [1 / n] raises. *)
Lemma power_zero_n p_null p_alt alpha plot fig :
  fst (power p_null p_alt (PyInt 0) alpha plot fig) = Raise ZeroDivisionError.
Proof. reflexivity. Qed.



(** ** Numerical enclosures of the normal distribution

    Taylor enclosures of [exp (- u)] and of the integral of the density. *)

(** [exp_term k u = (-u)^k / k!] *)
Fixpoint exp_term (k : nat) (u : R) : R :=
  match k with
  | O => 1
  | S j => exp_term j u * (- u) / INR (S j)
  end.

(** The partial sum of order [n] of the series of [exp (- u)]. *)
Fixpoint exp_sum (n : nat) (u : R) : R :=
  match n with
  | O => 1
  | S m => exp_sum m u + exp_term (S m) u
  end.

(** Their derivatives. *)
Definition exp_term' (k : nat) (u : R) : R :=
  match k with
  | O => 0
  | S j => - exp_term j u
  end.

Definition exp_sum' (n : nat) (u : R) : R :=
  match n with
  | O => 0
  | S m => - exp_sum m u
  end.

Lemma INR_S_neq_0 k : INR (S k) <> 0.
Proof. apply not_0_INR. discriminate. Qed.

Lemma derivable_pt_lim_exp_term k u :
  derivable_pt_lim (exp_term k) u (exp_term' k u).
Proof.
  induction k as [| j IH].
  - apply (derivable_pt_lim_const 1).
  - apply derivable_pt_lim_ext
      with (f := mult_real_fct (/ INR (S j)) (exp_term j * (- id))%F).
    + intros y. cbn [exp_term].
      unfold mult_real_fct, mult_fct, opp_fct, id, Rdiv. ring.
    + replace (exp_term' (S j) u)
        with (/ INR (S j) * (exp_term' j u * (- id)%F u + exp_term j u * -1)).
      * apply derivable_pt_lim_scal, derivable_pt_lim_mult; trivial.
        apply derivable_pt_lim_opp, derivable_pt_lim_id.
      * pose proof (INR_S_neq_0 j) as Hj.
        unfold opp_fct, id. destruct j as [| i].
        -- cbn [exp_term' exp_term INR]. field.
        -- pose proof (INR_S_neq_0 i) as Hi.
           cbn [exp_term' exp_term]. rewrite (S_INR (S i)) in *. field.
           split; trivial.
Qed.

Lemma derivable_pt_lim_exp_sum n u :
  derivable_pt_lim (exp_sum n) u (exp_sum' n u).
Proof.
  induction n as [| m IH].
  - apply (derivable_pt_lim_const 1).
  - replace (exp_sum' (S m) u) with (exp_sum' m u + exp_term' (S m) u).
    + apply (derivable_pt_lim_plus (exp_sum m) (exp_term (S m))); trivial.
      apply derivable_pt_lim_exp_term.
    + destruct m.
      * cbn [exp_sum' exp_term' exp_sum exp_term]. ring.
      * cbn [exp_sum' exp_term' exp_sum]. ring.
Qed.

Lemma exp_term_0 k : exp_term (S k) 0 = 0.
Proof. cbn [exp_term]. unfold Rdiv. ring. Qed.

Lemma exp_sum_0 n : exp_sum n 0 = 1.
Proof.
  induction n as [| m IH]; [reflexivity |].
  cbn [exp_sum]. rewrite IH, exp_term_0. ring.
Qed.

(** The partial sums of the alternating series enclose [exp (- u)]. *)
Lemma exp_sum_alternates n u :
  0 <= u -> 0 <= (-1) ^ n * (exp_sum n u - exp (- u)).
Proof.
  revert u. induction n as [| m IH]; intros u Hu.
  - cbn [pow exp_sum]. rewrite Rmult_1_l.
    assert (exp (- u) <= 1).
    { rewrite <- exp_0. destruct Hu as [Hu | <-].
      - left. apply exp_increasing. lra.
      - rewrite Ropp_0. lra. }
    lra.
  - set (h := fun t => (-1) ^ S m * (exp_sum (S m) t - exp (- t))).
    assert (Hh : h 0 <= h u).
    { apply deriv_nonneg_le
        with (f' := fun t => (-1) ^ m * (exp_sum m t - exp (- t))); trivial.
      - intros c _. unfold h.
        replace ((-1) ^ m * (exp_sum m c - exp (- c)))
          with ((-1) ^ S m * (exp_sum' (S m) c - exp (- c) * -1))
          by (cbn [pow exp_sum']; ring).
        apply derivable_pt_lim_scal.
        apply (derivable_pt_lim_minus (exp_sum (S m)) (comp exp (- id)%F)).
        + apply derivable_pt_lim_exp_sum.
        + apply derivable_pt_lim_comp.
          * apply derivable_pt_lim_opp, derivable_pt_lim_id.
          * apply derivable_pt_lim_exp.
      - intros c Hc. apply IH. lra. }
    unfold h in Hh at 1. rewrite exp_sum_0, Ropp_0, exp_0 in Hh.
    unfold h in Hh. lra.
Qed.

(** [gauss_term k x = (-1)^k x^(2k+1) / (2^k k! (2k+1))]: the terms of
    the series of the integral of the density. *)
Definition gauss_term (k : nat) (x : R) : R :=
  exp_term k (x * x / 2) * x / INR (2 * k + 1).

Fixpoint gauss_sum (n : nat) (x : R) : R :=
  match n with
  | O => gauss_term 0 x
  | S m => gauss_sum m x + gauss_term (S m) x
  end.

Lemma exp_term_scal k s t : exp_term k (s * t) = exp_term k s * t ^ k.
Proof.
  induction k as [| j IH]; cbn [exp_term pow]; [ring |].
  rewrite IH. unfold Rdiv. ring.
Qed.

Lemma pow_square k y : (y * y) ^ k = y ^ (2 * k).
Proof. rewrite pow_mult. f_equal. cbn [pow]. ring. Qed.

Lemma derivable_pt_lim_gauss_term k x :
  derivable_pt_lim (gauss_term k) x (exp_term k (x * x / 2)).
Proof.
  pose proof (INR_S_neq_0 (2 * k)) as Hk.
  replace (S (2 * k)) with (2 * k + 1)%nat in Hk by lia.
  apply derivable_pt_lim_ext
    with (f := mult_real_fct (exp_term k (/ 2) / INR (2 * k + 1))
                 (fun y => y ^ (2 * k + 1))).
  - intros y. unfold mult_real_fct, gauss_term.
    replace (y * y / 2) with (/ 2 * (y * y)) by (unfold Rdiv; ring).
    rewrite exp_term_scal, pow_square, pow_add.
    cbn [pow]. unfold Rdiv. ring.
  - replace (exp_term k (x * x / 2))
      with (exp_term k (/ 2) / INR (2 * k + 1)
            * (INR (2 * k + 1) * x ^ pred (2 * k + 1))).
    + apply derivable_pt_lim_scal, derivable_pt_lim_pow.
    + replace (pred (2 * k + 1)) with (2 * k)%nat by lia.
      replace (x * x / 2) with (/ 2 * (x * x)) by (unfold Rdiv; ring).
      rewrite exp_term_scal, pow_square. field. exact Hk.
Qed.

Lemma derivable_pt_lim_gauss_sum n x :
  derivable_pt_lim (gauss_sum n) x (exp_sum n (x * x / 2)).
Proof.
  induction n as [| m IH].
  - apply (derivable_pt_lim_gauss_term 0).
  - apply (derivable_pt_lim_plus (gauss_sum m) (gauss_term (S m))); trivial.
    apply derivable_pt_lim_gauss_term.
Qed.

Lemma gauss_sum_0 n : gauss_sum n 0 = 0.
Proof.
  induction n as [| m IH]; cbn [gauss_sum]; unfold gauss_term.
  - unfold Rdiv. ring.
  - rewrite IH. unfold Rdiv. ring.
Qed.

(** The partial sums enclose the integral of the density. *)
Lemma gauss_sum_alternates n x :
  0 <= x -> 0 <= (-1) ^ n * (gauss_sum n x - gauss_int x).
Proof.
  intros Hx.
  set (h := fun t => (-1) ^ n * (gauss_sum n t - gauss_int t)).
  assert (Hh : h 0 <= h x).
  { apply deriv_nonneg_le
      with (f' := fun t => (-1) ^ n * (exp_sum n (t * t / 2) - gauss t));
      trivial.
    - intros c _. unfold h.
      apply derivable_pt_lim_scal.
      apply (derivable_pt_lim_minus (gauss_sum n) gauss_int).
      + apply derivable_pt_lim_gauss_sum.
      + apply derivable_pt_lim_gauss_int.
    - intros c Hc. unfold gauss. apply exp_sum_alternates. nra. }
  unfold h in Hh. rewrite gauss_sum_0, gauss_int_0 in Hh. lra.
Qed.

Lemma gauss_int_upper m x : 0 <= x -> gauss_int x <= gauss_sum (2 * m) x.
Proof.
  intros Hx. pose proof (gauss_sum_alternates (2 * m) x Hx) as H.
  rewrite pow_1_even in H. lra.
Qed.

Lemma gauss_int_lower m x : 0 <= x -> gauss_sum (S (2 * m)) x <= gauss_int x.
Proof.
  intros Hx. pose proof (gauss_sum_alternates (S (2 * m)) x Hx) as H.
  rewrite pow_1_odd in H. lra.
Qed.

Lemma gauss_upper m x : gauss x <= exp_sum (2 * m) (x * x / 2).
Proof.
  assert (Hu : 0 <= x * x / 2) by nra.
  pose proof (exp_sum_alternates (2 * m) _ Hu) as H.
  rewrite pow_1_even in H. unfold gauss. lra.
Qed.

(** Beyond [X > 0] the integral grows by at most [gauss X / X]. *)
Lemma half_mass_upper X : 0 < X -> half_mass <= gauss_int X + gauss X / X.
Proof.
  intros HX. apply (proj2 half_mass_lub). intros y [t ->].
  pose proof (gauss_pos X) as HgX.
  assert (Hq : 0 < gauss X / X) by now apply Rdiv_lt_0_compat.
  destruct (Rle_dec t X) as [Ht | Ht].
  - assert (gauss_int t <= gauss_int X).
    { destruct Ht as [Ht | ->]; [left; now apply gauss_int_increasing | lra]. }
    lra.
  - set (h := fun s => - gauss s / X - gauss_int s).
    assert (Hh : h X <= h t).
    { apply deriv_nonneg_le with (f' := fun s => gauss s * (s / X - 1)).
      - lra.
      - intros c _. unfold h.
        replace (gauss c * (c / X - 1))
          with (/ X * - (- c * gauss c) - gauss c) by (field; lra).
        apply derivable_pt_lim_ext
          with (f := (mult_real_fct (/ X) (- gauss)%F - gauss_int)%F).
        + intros s. unfold minus_fct, mult_real_fct, opp_fct, Rdiv. ring.
        + apply derivable_pt_lim_minus.
          * apply derivable_pt_lim_scal, derivable_pt_lim_opp,
              derivable_pt_lim_gauss.
          * apply derivable_pt_lim_gauss_int.
      - intros c Hc. pose proof (gauss_pos c).
        apply Rmult_le_pos; [lra |].
        assert (1 <= c / X).
        { apply Rmult_le_reg_r with X; trivial.
          unfold Rdiv. rewrite Rmult_assoc, Rinv_l by lra. lra. }
        lra. }
    unfold h in Hh. pose proof (gauss_pos t) as Hgt.
    assert (0 < gauss t / X) by now apply Rdiv_lt_0_compat.
    unfold Rdiv in *. lra.
Qed.

(** ** Evaluation of the partial sums at rational points

    The same sums over [Q], reduced to lowest terms as they grow. *)

Fixpoint exp_term_Q (k : nat) (u : Q) : Q :=
  match k with
  | O => 1%Q
  | S j => (exp_term_Q j u * (- u) / inject_Z (Z.of_nat (S j)))%Q
  end.

Fixpoint exp_sum_Q (n : nat) (u : Q) : Q :=
  match n with
  | O => 1%Q
  | S m => Qred (exp_sum_Q m u + exp_term_Q (S m) u)%Q
  end.

Definition gauss_term_Q (k : nat) (x : Q) : Q :=
  Qred (exp_term_Q k (x * x / 2) * x / inject_Z (Z.of_nat (2 * k + 1)))%Q.

Fixpoint gauss_sum_Q (n : nat) (x : Q) : Q :=
  match n with
  | O => gauss_term_Q 0 x
  | S m => Qred (gauss_sum_Q m x + gauss_term_Q (S m) x)%Q
  end.

Lemma Q2R_Qred q : Q2R (Qred q) = Q2R q.
Proof. apply Qeq_eqR, Qred_correct. Qed.

Lemma Q2R_of_nat n : Q2R (inject_Z (Z.of_nat n)) = INR n.
Proof.
  rewrite INR_IZR_INZ. unfold Q2R, inject_Z. cbn [Qnum Qden].
  rewrite Rinv_1. ring.
Qed.

Lemma of_nat_S_neq_0 n : ~ (inject_Z (Z.of_nat (S n)) == 0)%Q.
Proof.
  unfold Qeq, inject_Z. cbn [Qnum Qden]. lia.
Qed.

Lemma Q2R_two : Q2R 2 = 2.
Proof. unfold Q2R. cbn [Qnum Qden]. lra. Qed.

Lemma Q2R_exp_term k u : Q2R (exp_term_Q k u) = exp_term k (Q2R u).
Proof.
  induction k as [| j IH]; cbn [exp_term_Q exp_term].
  - unfold Q2R. cbn [Qnum Qden]. lra.
  - rewrite Q2R_div by apply of_nat_S_neq_0.
    now rewrite Q2R_mult, Q2R_opp, Q2R_of_nat, IH.
Qed.

Lemma Q2R_exp_sum n u : Q2R (exp_sum_Q n u) = exp_sum n (Q2R u).
Proof.
  induction n as [| m IH]; cbn [exp_sum_Q exp_sum].
  - unfold Q2R. cbn [Qnum Qden]. lra.
  - now rewrite Q2R_Qred, Q2R_plus, IH, Q2R_exp_term.
Qed.

Lemma Q2R_gauss_term k x : Q2R (gauss_term_Q k x) = gauss_term k (Q2R x).
Proof.
  unfold gauss_term_Q, gauss_term.
  replace (2 * k + 1)%nat with (S (2 * k)) by lia.
  rewrite Q2R_Qred, Q2R_div by apply of_nat_S_neq_0.
  rewrite Q2R_mult, Q2R_exp_term, Q2R_of_nat.
  rewrite Q2R_div by discriminate.
  now rewrite Q2R_mult, Q2R_two.
Qed.

Lemma Q2R_gauss_sum n x : Q2R (gauss_sum_Q n x) = gauss_sum n (Q2R x).
Proof.
  induction n as [| m IH]; cbn [gauss_sum_Q gauss_sum].
  - apply Q2R_gauss_term.
  - now rewrite Q2R_Qred, Q2R_plus, IH, Q2R_gauss_term.
Qed.

(** Rational bounds on the half mass, from the partial sums at [5] and
    the tail beyond. *)
Definition half_mass_lo : Q := 12533134 # 10000000.
Definition half_mass_hi : Q := 12533142 # 10000000.

Lemma half_mass_lower : Q2R half_mass_lo <= half_mass.
Proof.
  apply Rle_trans with (Q2R (gauss_sum_Q 49 5)).
  - apply Qle_Rle, Qle_bool_imp_le. vm_compute. reflexivity.
  - rewrite Q2R_gauss_sum.
    apply Rle_trans with (gauss_int (Q2R 5)).
    + apply (gauss_int_lower 24). unfold Q2R. cbn [Qnum Qden]. lra.
    + left. apply gauss_int_lt_half_mass.
Qed.

Lemma half_mass_upper_Q : half_mass <= Q2R half_mass_hi.
Proof.
  apply Rle_trans
    with (Q2R (gauss_sum_Q 48 5 + exp_sum_Q 48 (5 * 5 / 2) / 5)%Q).
  2:{ apply Qle_Rle, Qle_bool_imp_le. vm_compute. reflexivity. }
  assert (H5 : Q2R 5 = 5) by (unfold Q2R; cbn [Qnum Qden]; lra).
  rewrite Q2R_plus, Q2R_div, Q2R_gauss_sum, Q2R_exp_sum by discriminate.
  rewrite Q2R_div, Q2R_mult, Q2R_two, H5 by discriminate.
  apply Rle_trans with (gauss_int 5 + gauss 5 / 5).
  - apply half_mass_upper. lra.
  - apply Rplus_le_compat.
    + apply (gauss_int_upper 24). lra.
    + apply Rmult_le_compat_r; [lra |]. apply (gauss_upper 24).
Qed.

(** ** Rational enclosures of the distribution function *)

(** [ndtr x <= p] is checked on the partial sums: an upper sum for the
    integral against the lower bound of the half mass. *)
Definition ndtr_le_check (m : nat) (x p : Q) : bool :=
  Qle_bool 0 x && Qle_bool (1 # 2) p
  && Qle_bool (gauss_sum_Q (2 * m) x) ((2 * p - 1) * half_mass_lo).

(** [p <= ndtr x]: a lower sum against the upper bound of the half mass. *)
Definition ndtr_ge_check (m : nat) (x p : Q) : bool :=
  Qle_bool 0 x && Qle_bool (1 # 2) p
  && Qle_bool ((2 * p - 1) * half_mass_hi) (gauss_sum_Q (S (2 * m)) x).

Lemma ndtr_times_mass x : ndtr x * (2 * half_mass) = half_mass + gauss_int x.
Proof. unfold ndtr. pose proof half_mass_pos. field. lra. Qed.

Lemma Q2R_nonneg q : Qle_bool 0 q = true -> 0 <= Q2R q.
Proof.
  intros H. apply Qle_bool_imp_le, Qle_Rle in H.
  now rewrite RMicromega.Q2R_0 in H.
Qed.

Lemma ndtr_le_check_sound m x p :
  ndtr_le_check m x p = true -> ndtr (Q2R x) <= Q2R p.
Proof.
  unfold ndtr_le_check. rewrite !andb_true_iff. intros [[Hx Hp] Hc].
  apply Q2R_nonneg in Hx.
  apply Qle_bool_imp_le, Qle_Rle in Hp, Hc.
  rewrite Q2R_gauss_sum, Q2R_mult, Q2R_minus, Q2R_mult, Q2R_two in Hc.
  replace (Q2R (1 # 2)) with (1 / 2) in Hp
    by (unfold Q2R; cbn [Qnum Qden]; lra).
  replace (Q2R 1) with 1 in Hc by (unfold Q2R; cbn [Qnum Qden]; lra).
  pose proof (gauss_int_upper m _ Hx) as Hg.
  pose proof half_mass_lower as HL. pose proof half_mass_pos as Hpos.
  pose proof (ndtr_times_mass (Q2R x)) as E.
  apply Rmult_le_reg_r with (2 * half_mass); [lra |]. rewrite E.
  assert ((2 * Q2R p - 1) * Q2R half_mass_lo <= (2 * Q2R p - 1) * half_mass)
    by (apply Rmult_le_compat_l; lra).
  lra.
Qed.

Lemma ndtr_ge_check_sound m x p :
  ndtr_ge_check m x p = true -> Q2R p <= ndtr (Q2R x).
Proof.
  unfold ndtr_ge_check. rewrite !andb_true_iff. intros [[Hx Hp] Hc].
  apply Q2R_nonneg in Hx.
  apply Qle_bool_imp_le, Qle_Rle in Hp, Hc.
  rewrite Q2R_gauss_sum, Q2R_mult, Q2R_minus, Q2R_mult, Q2R_two in Hc.
  replace (Q2R (1 # 2)) with (1 / 2) in Hp
    by (unfold Q2R; cbn [Qnum Qden]; lra).
  replace (Q2R 1) with 1 in Hc by (unfold Q2R; cbn [Qnum Qden]; lra).
  pose proof (gauss_int_lower m _ Hx) as Hg.
  pose proof half_mass_upper_Q as HL. pose proof half_mass_pos as Hpos.
  pose proof (ndtr_times_mass (Q2R x)) as E.
  apply Rmult_le_reg_r with (2 * half_mass); [lra |]. rewrite E.
  assert ((2 * Q2R p - 1) * half_mass <= (2 * Q2R p - 1) * Q2R half_mass_hi)
    by (apply Rmult_le_compat_l; lra).
  lra.
Qed.

Lemma Q2R_make n d : Q2R (n # d) = IZR n / IZR (Zpos d).
Proof. reflexivity. Qed.

(** Proves [ndtr x <= p] or [p <= ndtr x] for decimal [x] and [p], given
    as the rationals [qx] and [qp], on the partial sums of order [2m] or
    [2m + 1]. *)
Ltac ndtr_bound m qx qp :=
  lazymatch goal with
  | |- ndtr ?x <= ?p =>
      replace x with (Q2R qx) by (rewrite Q2R_make; lra);
      replace p with (Q2R qp) by (rewrite Q2R_make; lra);
      apply (ndtr_le_check_sound m); vm_compute; reflexivity
  | |- ?p <= ndtr ?x =>
      replace x with (Q2R qx) by (rewrite Q2R_make; lra);
      replace p with (Q2R qp) by (rewrite Q2R_make; lra);
      apply (ndtr_ge_check_sound m); vm_compute; reflexivity
  end.

Lemma ndtr_1_6448 : ndtr 1.6448 <= 0.95.
Proof. ndtr_bound 6%nat (16448 # 10000)%Q (95 # 100)%Q. Qed.

Lemma ndtr_1_6449 : 0.95 <= ndtr 1.6449.
Proof. ndtr_bound 6%nat (16449 # 10000)%Q (95 # 100)%Q. Qed.

Lemma ndtr_0_8416 : ndtr 0.8416 <= 0.8.
Proof. ndtr_bound 4%nat (8416 # 10000)%Q (8 # 10)%Q. Qed.

Lemma ndtr_0_84166 : 0.8 <= ndtr 0.84166.
Proof. ndtr_bound 4%nat (84166 # 100000)%Q (8 # 10)%Q. Qed.

Lemma ndtr_0_1478 : 0.5587 <= ndtr 0.1478.
Proof. ndtr_bound 2%nat (1478 # 10000)%Q (5587 # 10000)%Q. Qed.

Lemma ndtr_0_148 : ndtr 0.148 <= 0.5589.
Proof. ndtr_bound 2%nat (148 # 1000)%Q (5589 # 10000)%Q. Qed.

(** Enclosures of a quantile from enclosures of the distribution
    function. *)
Lemma ndtri_lower a p : 0 < p < 1 -> ndtr a <= p -> a <= ndtri p.
Proof.
  intros Hp Ha. destruct (Rle_dec a (ndtri p)) as [H | H]; trivial.
  assert (Hlt : ndtr (ndtri p) < ndtr a) by (apply ndtr_increasing; lra).
  rewrite ndtr_ndtri in Hlt by assumption. lra.
Qed.

Lemma ndtri_upper b p : 0 < p < 1 -> p <= ndtr b -> ndtri p <= b.
Proof.
  intros Hp Hb. destruct (Rle_dec (ndtri p) b) as [H | H]; trivial.
  assert (Hlt : ndtr b < ndtr (ndtri p)) by (apply ndtr_increasing; lra).
  rewrite ndtr_ndtri in Hlt by assumption. lra.
Qed.

Lemma ndtri_0_95 : 1.6448 <= ndtri 0.95 <= 1.6449.
Proof.
  split.
  - apply ndtri_lower; [lra | apply ndtr_1_6448].
  - apply ndtri_upper; [lra | apply ndtr_1_6449].
Qed.

Lemma ndtri_0_2 : -0.84166 <= ndtri 0.2 <= -0.8416.
Proof.
  split.
  - apply ndtri_lower; [lra |].
    replace (-0.84166) with (Ropp 0.84166) by lra.
    rewrite ndtr_opp. pose proof ndtr_0_84166. lra.
  - apply ndtri_upper; [lra |].
    replace (-0.8416) with (Ropp 0.8416) by lra.
    rewrite ndtr_opp. pose proof ndtr_0_8416. lra.
Qed.

Lemma sqrt_enclosure a b x :
  0 <= a -> 0 <= b -> a * a <= x <= b * b -> a <= sqrt x <= b.
Proof.
  intros Ha Hb [Hl Hu]. split.
  - rewrite <- (sqrt_square a) by assumption. now apply sqrt_le_1_alt.
  - rewrite <- (sqrt_square b) by assumption. now apply sqrt_le_1_alt.
Qed.

(** ** The worked example of the source: a 10% baseline rate, a 12%
    target rate, [alpha = 0.05], [beta = 0.20] *)

Lemma size_value_scenario : 2862 < size_value 0.1 0.12 0.05 0.2 <= 2863.
Proof.
  unfold size_value. replace (1 - 0.05) with 0.95 by lra.
  pose proof ndtri_0_95 as [Hz1l Hz1u]. pose proof ndtri_0_2 as [Hz2l Hz2u].
  assert (Hs0 : 0.424264 <= sqrt (2 * 0.1 * (1 - 0.1)) <= 0.424265)
    by (apply sqrt_enclosure; lra).
  assert (Hs1 : 0.442266
                <= sqrt (0.1 * (1 - 0.1) + 0.12 * (1 - 0.12)) <= 0.442267)
    by (apply sqrt_enclosure; lra).
  set (z1 := ndtri 0.95) in *. set (z2 := ndtri 0.2) in *.
  set (s0 := sqrt (2 * 0.1 * (1 - 0.1))) in *.
  set (s1 := sqrt (0.1 * (1 - 0.1) + 0.12 * (1 - 0.12))) in *.
  assert (Hp1 : 1.6448 * 0.424264 <= z1 * s0 <= 1.6449 * 0.424265)
    by (split; apply Rmult_le_compat; lra).
  assert (Hp2 : 0.8416 * 0.442266 <= - z2 * s1 <= 0.84166 * 0.442267)
    by (split; apply Rmult_le_compat; lra).
  set (r := (z1 * s0 - z2 * s1) / (0.12 - 0.1)).
  assert (E : r = 50 * (z1 * s0 - z2 * s1)) by (unfold r; lra).
  assert (Hr : 53.502 <= r <= 53.5056) by lra.
  split; nra.
Qed.

Lemma experiment_size_scenario :
  returns (experiment_size 0.1 0.12 0.05 0.2) (Fin 2863).
Proof.
  intros fig. rewrite experiment_size_eval by lra.
  rewrite (Zceil_eq 2863); [reflexivity |].
  pose proof size_value_scenario. lra.
Qed.

Lemma power_value_scenario :
  0.4411 <= power_value 0.1 0.12 (1 / 1000) 0.05 <= 0.4413.
Proof.
  unfold power_value, normal_cdf. replace (1 - 0.05) with 0.95 by lra.
  pose proof ndtri_0_95 as [Hz1l Hz1u].
  assert (Hs0 : 0.0134164
                <= sqrt (1 / 1000 * (2 * 0.1 * (1 - 0.1))) <= 0.0134165)
    by (apply sqrt_enclosure; lra).
  assert (Hs1 : 0.0139857
                <= sqrt (1 / 1000 * (0.1 * (1 - 0.1) + 0.12 * (1 - 0.12)))
                <= 0.0139858)
    by (apply sqrt_enclosure; lra).
  set (z1 := ndtri 0.95) in *.
  set (se_null := sqrt (1 / 1000 * (2 * 0.1 * (1 - 0.1)))) in *.
  set (se_alt :=
         sqrt (1 / 1000 * (0.1 * (1 - 0.1) + 0.12 * (1 - 0.12)))) in *.
  assert (Hp : 1.6448 * 0.0134164 <= z1 * se_null <= 1.6449 * 0.0134165)
    by (split; apply Rmult_le_compat; lra).
  set (t := (z1 * se_null + 0 - (0.12 - 0.1)) / se_alt).
  assert (E : t * se_alt = z1 * se_null + 0 - (0.12 - 0.1))
    by (unfold t; field; lra).
  assert (Ht : 0.1478 <= t <= 0.148).
  { split; apply Rmult_le_reg_r with se_alt; lra. }
  pose proof (ndtr_le _ _ (proj1 Ht)). pose proof (ndtr_le _ _ (proj2 Ht)).
  pose proof ndtr_0_1478. pose proof ndtr_0_148. lra.
Qed.

Lemma power_scenario plot :
  returns (power 0.1 0.12 (PyInt 1000) 0.05 plot)
    (Fin (power_value 0.1 0.12 (1 / 1000) 0.05)).
Proof.
  apply power_eval; try lra. apply (one_over_int 1000). lia.
Qed.

(** * The edges of the domain in binary64 arithmetic

    What the source computes where rounding and underflow decide the
    result.  What is stated at an edge of the domain holds whatever
    [ndtr] and [ndtri] compute. *)

Section Binary64.
Import Floats.
Set Warnings "-inexact-float".
Local Open Scope float_scope.

(** [1 / n] on a Python [int]: the float quotient where [n] is a binary64
    number, a subnormal number for huge [n], and [0.0] from
    [n = 2 ** 1075] on. *)
Lemma one_over_values :
  F64.one_over (F64.PyInt 1000) = Ok (1 / 1000)
  /\ F64.one_over (F64.PyInt (-7)) = Ok (1 / -7)
  /\ F64.one_over (F64.PyInt (10 ^ 323)) = Ok 0x2p-1074
  /\ F64.one_over (F64.PyInt (2 ^ 1075)) = Ok 0
  /\ F64.one_over (F64.PyInt (10 ^ 324)) = Ok 0
  /\ F64.one_over (F64.PyInt 0) = Raise ZeroDivisionError
  /\ F64.one_over (F64.NpFloat64 0) = Ok infinity.
Proof. repeat split; vm_compute; reflexivity. Qed.

Lemma np_ceil_values :
  F64.np_ceil 2862.06 = 2863 /\ F64.np_ceil 2863 = 2863
  /\ F64.np_ceil 2.0000000000000346 = 3
  /\ F64.np_ceil 0x1p-1074 = 1 /\ F64.np_ceil 0 = 0
  /\ F64.np_ceil (-2.5) = -2 /\ F64.np_ceil (-0.5) = -0
  /\ F64.np_ceil infinity = infinity /\ F64.np_ceil nan = nan.
Proof. repeat split; vm_compute; reflexivity. Qed.

(** The worked example of the source, with the binary64 values
    [1.6448536269514722] and [-0.8416212335729143] for its two
    quantiles: the sample size is [2863.0]. *)
Lemma experiment_size_scenario_binary64 ndtri :
  ndtri 0.95 = 1.6448536269514722 ->
  ndtri 0.2 = -0.8416212335729143 ->
  F64.experiment_size ndtri 0.1 0.12 0.05 0.2 = 2863.
Proof.
  intros H95 H2. unfold F64.experiment_size, F64.ppf.
  replace (1 - 0.05) with 0.95 by reflexivity.
  cbn [andb].
  replace (0 <? 1) with true by reflexivity.
  replace (0 =? 0) with true by reflexivity.
  replace (0 <? 0.95) with true by reflexivity.
  replace (0.95 <? 1) with true by reflexivity.
  replace (0 <? 0.2) with true by reflexivity.
  replace (0.2 <? 1) with true by reflexivity.
  cbn [andb]. rewrite H95, H2. vm_compute. reflexivity.
Qed.


(** No number is below, or equal to, [nan]. *)
Lemma ltb_nan (x : float) : (x <? nan) = false.
Proof.
  rewrite ltb_spec. change (Prim2SF nan) with S754_nan.
  now destruct (Prim2SF x) as [s | s | | s m e]; try destruct s.
Qed.


(** Below [2 ^ -54] an [alpha] is absorbed: [1 - alpha] is [1.0], the
    quantile asked of scipy is the one at 1, which is [inf]. *)
Lemma one_minus_tiny_alpha :
  1 - 1e-17 = 1 /\ 1 - 1e-20 = 1
  /\ forall ndtri, F64.ppf ndtri 0 1 1 = infinity.
Proof. split; [| split; [| intros ndtri]]; reflexivity. Qed.









End Binary64.

(** * The specification's claims *)







(** C9.  On valid inputs the value [power] returns does not depend on
    the [plot] flag. *)
Theorem power_independent_of_plot p_null p_alt n alpha :
  0 < p_null < 1 -> 0 < p_alt < 1 -> p_null < p_alt ->
  (1 <= n)%Z -> 0 < alpha < 1 ->
  exists v,
    returns (power p_null p_alt (PyInt n) alpha true) v
    /\ returns (power p_null p_alt (PyInt n) alpha false) v.
Proof.
  intros H0 H1 Hlt Hn Ha.
  exists (Fin (power_value p_null p_alt (1 / IZR n) alpha)).
  split; apply power_eval; trivial;
    try (now apply one_over_int); now apply inv_int_pos.
Qed.

Lemma power_independent_of_plot_witness :
  exists v,
    returns (power 0.1 0.12 (PyInt 1000) 0.05 true) v
    /\ returns (power 0.1 0.12 (PyInt 1000) 0.05 false) v.
Proof. apply power_independent_of_plot; lra || lia. Defined.








(** C4, at [p_alt = p_null = 0.1] and at [p_alt = 0.1 < p_null = 0.12]:
    no exception is raised; the zero effect size gives [inf]. *)
Lemma experiment_size_returns_on_bad_direction :
  returns (experiment_size 0.1 0.1 0.05 0.2) PInf
  /\ ~ fails (experiment_size 0.1 0.1 0.05 0.2)
  /\ ~ fails (experiment_size 0.12 0.1 0.05 0.2).
Proof.
  split; [| split; apply experiment_size_never_fails].
  apply experiment_size_zero_effect; lra.
Qed.

(** C4, amended.  [experiment_size] validates nothing and raises nothing:
    with [p_alt <= p_null] the call returns a value.  With
    [p_alt = p_null] the division by the zero effect size goes through
    and the value returned is [inf] or [nan], never a number. *)
Theorem experiment_size_unvalidated p_null p_alt alpha beta :
  p_alt <= p_null ->
  ~ fails (experiment_size p_null p_alt alpha beta)
  /\ (exists v, returns (experiment_size p_null p_alt alpha beta) v)
  /\ (p_alt = p_null ->
      returns (experiment_size p_null p_alt alpha beta) PInf
      \/ returns (experiment_size p_null p_alt alpha beta) NaN).
Proof.
  intros Hle.
  split; [apply experiment_size_never_fails |].
  split; [eexists; intros fig; reflexivity |].
  intros ->. apply experiment_size_zero_effect_size.
Qed.

Lemma experiment_size_unvalidated_witness :
  ~ fails (experiment_size 0.12 0.1 0.05 0.2)
  /\ (exists v, returns (experiment_size 0.12 0.1 0.05 0.2) v)
  /\ (0.1 = 0.12 ->
      returns (experiment_size 0.12 0.1 0.05 0.2) PInf
      \/ returns (experiment_size 0.12 0.1 0.05 0.2) NaN).
Proof. apply experiment_size_unvalidated; lra. Defined.

(** C8, at [n = -1]: no exception is raised; the result is [nan]. *)
Lemma power_returns_on_negative_n :
  returns (power 0.1 0.12 (PyInt (-1)) 0.05 false) NaN
  /\ ~ fails (power 0.1 0.12 (PyInt (-1)) 0.05 false).
Proof.
  assert (H : returns (power 0.1 0.12 (PyInt (-1)) 0.05 false) NaN)
    by (apply power_negative_n; lra || lia).
  split; [exact H | exact (returns_not_fails _ _ H)].
Qed.

(** C8, amended.  [power] does not validate the sample size.  With
    [n = 0] the division [1 / n] raises [ZeroDivisionError]; with [n < 0]
    and probabilities in (0,1) nothing is raised and, without the plot,
    the result is [nan]. *)
Theorem power_unvalidated_n p_null p_alt n alpha :
  0 < p_null < 1 -> 0 < p_alt < 1 -> (n < 1)%Z ->
  (n = 0%Z ->
   forall plot fig,
     fst (power p_null p_alt (PyInt n) alpha plot fig)
     = Raise ZeroDivisionError)
  /\ ((n < 0)%Z ->
      returns (power p_null p_alt (PyInt n) alpha false) NaN).
Proof.
  intros H0 H1 Hn. split.
  - intros -> plot fig. apply power_zero_n.
  - intros Hneg. now apply power_negative_n.
Qed.

Lemma power_unvalidated_n_witness :
  ((-1)%Z = 0%Z ->
   forall plot fig,
     fst (power 0.1 0.12 (PyInt (-1)) 0.05 plot fig)
     = Raise ZeroDivisionError)
  /\ ((-1 < 0)%Z ->
      returns (power 0.1 0.12 (PyInt (-1)) 0.05 false) NaN).
Proof. apply power_unvalidated_n; lra || lia. Defined.

(** C7.  [power(0.10, 0.12, n=1000, alpha=0.05)] is within 1% of 0.44, and
    [experiment_size(0.10, 0.12, alpha=0.05, beta=0.20)] is within 1% of
    2863 (it is 2863). *)
Theorem scenario_values plot :
  (exists v,
     returns (power 0.1 0.12 (PyInt 1000) 0.05 plot) (Fin v)
     /\ Rabs (v - 0.44) <= 0.01 * 0.44)
  /\ (exists n,
        returns (experiment_size 0.1 0.12 0.05 0.2) (Fin n)
        /\ Rabs (n - 2863) <= 0.01 * 2863).
Proof.
  split.
  - exists (power_value 0.1 0.12 (1 / 1000) 0.05).
    split; [apply power_scenario |].
    pose proof power_value_scenario. apply Rabs_le. lra.
  - exists 2863. split; [apply experiment_size_scenario |].
    apply Rabs_le. lra.
Qed.

(** * Further properties of [power] and [experiment_size] *)

Lemma ndtri_increasing p q : 0 < p -> p < q -> q < 1 -> ndtri p < ndtri q.
Proof.
  intros Hp Hpq Hq. apply ndtr_lt_inv. rewrite !ndtr_ndtri by lra. lra.
Qed.

Lemma ndtri_le p q : 0 < p -> p <= q -> q < 1 -> ndtri p <= ndtri q.
Proof.
  intros Hp [Hlt | ->] Hq; [left; now apply ndtri_increasing | lra].
Qed.

Lemma div_sqrt_inv d N : 0 < N -> d / sqrt (1 / N) = d * sqrt N.
Proof.
  intros HN. pose proof (sqrt_lt_R0 _ HN).
  unfold Rdiv at 2. rewrite Rmult_1_l, sqrt_inv. field. lra.
Qed.

(** [power] on a positive Python [int]. *)
Lemma power_int_eval p_null p_alt n alpha plot :
  0 < p_null < 1 -> 0 < p_alt < 1 -> (1 <= n)%Z -> 0 < alpha < 1 ->
  returns (power p_null p_alt (PyInt n) alpha plot)
    (Fin (power_value p_null p_alt (1 / IZR n) alpha)).
Proof.
  intros H0 H1 Hn Ha. apply power_eval; trivial.
  - now apply one_over_int.
  - now apply inv_int_pos.
Qed.

(** The closed form in terms of the sample size. *)
Lemma power_value_of_size p_null p_alt N alpha :
  0 < p_null < 1 -> 0 < p_alt < 1 -> 0 < N ->
  power_value p_null p_alt (1 / N) alpha
  = 1 - ndtr ((ndtri (1 - alpha) * sqrt (2 * p_null * (1 - p_null))
               - (p_alt - p_null) * sqrt N)
              / sqrt (p_null * (1 - p_null) + p_alt * (1 - p_alt))).
Proof.
  intros H0 H1 HN.
  rewrite power_value_eq by (trivial; apply Rdiv_lt_0_compat; lra).
  now rewrite div_sqrt_inv.
Qed.

(** X1.  With no effect ([p_alt = p_null]) the two standard errors
    coincide and [power] returns [alpha], the size of the test, up to the
    tolerance [1e-6]. *)
Theorem power_at_zero_effect p n alpha plot :
  0.01 <= p <= 0.99 -> (1 <= n <= 10 ^ 9)%Z -> 0 < alpha < 1 ->
  exists v,
    returns (power p p (PyInt n) alpha plot) (Fin v)
    /\ Rabs (v - alpha) <= 0.000001.
Proof.
  intros Hp' [Hn _] Ha.
  assert (Hp : 0 < p < 1) by lra.
  pose proof (var_pos _ Hp) as V. pose proof (inv_int_pos n Hn) as Hinv.
  exists (power_value p p (1 / IZR n) alpha).
  split; [now apply power_int_eval |].
  assert (E : power_value p p (1 / IZR n) alpha = alpha).
  { unfold power_value, normal_cdf.
    replace (p * (1 - p) + p * (1 - p)) with (2 * p * (1 - p)) by ring.
    assert (Hs : 0 < sqrt (1 / IZR n * (2 * p * (1 - p))))
      by (apply sqrt_lt_R0; nra).
    match goal with
    | |- 1 - ndtr ?t = _ => replace t with (ndtri (1 - alpha))
        by (field; lra)
    end.
    rewrite ndtr_ndtri by lra. ring. }
  rewrite E. replace (alpha - alpha) with 0 by ring. rewrite Rabs_R0. lra.
Qed.

Lemma power_at_zero_effect_witness :
  exists v,
    returns (power 0.1 0.1 (PyInt 1000) 0.05 true) (Fin v)
    /\ Rabs (v - 0.05) <= 0.000001.
Proof. apply power_at_zero_effect; lra || lia. Defined.

(** X2.  [power] does not decrease, beyond the tolerance [1e-6], when
    [alpha] grows: a larger Type-I error rate lowers the critical
    value. *)
Theorem power_increasing_in_alpha p_null p_alt n alpha1 alpha2 plot :
  0.01 <= p_null <= 0.99 -> 0.01 <= p_alt <= 0.99 ->
  (1 <= n <= 10 ^ 9)%Z ->
  0 < alpha1 -> alpha1 <= alpha2 -> alpha2 < 1 ->
  exists v1 v2,
    returns (power p_null p_alt (PyInt n) alpha1 plot) (Fin v1)
    /\ returns (power p_null p_alt (PyInt n) alpha2 plot) (Fin v2)
    /\ v1 <= v2 + 0.000001.
Proof.
  intros H0' H1' [Hn _] Ha1 Hle Ha2.
  assert (H0 : 0 < p_null < 1) by lra. assert (H1 : 0 < p_alt < 1) by lra.
  pose proof (var_pos _ H0) as V0. pose proof (var_pos _ H1) as V1.
  assert (HN : 0 < IZR n) by (apply IZR_lt; lia).
  exists (power_value p_null p_alt (1 / IZR n) alpha1),
         (power_value p_null p_alt (1 / IZR n) alpha2).
  split; [apply power_int_eval; trivial; lra |].
  split; [apply power_int_eval; trivial; lra |].
  assert (Hv : power_value p_null p_alt (1 / IZR n) alpha1
               <= power_value p_null p_alt (1 / IZR n) alpha2).
  { rewrite !power_value_of_size by trivial.
    apply Rplus_le_compat_l, Ropp_le_contravar, ndtr_le.
    assert (Hz : ndtri (1 - alpha2) <= ndtri (1 - alpha1))
      by (apply ndtri_le; lra).
    assert (Hs0 : 0 < sqrt (2 * p_null * (1 - p_null)))
      by (apply sqrt_lt_R0; nra).
    assert (Hs1 : 0 < sqrt (p_null * (1 - p_null) + p_alt * (1 - p_alt)))
      by (apply sqrt_lt_R0; nra).
    apply Rmult_le_compat_r; [left; now apply Rinv_0_lt_compat |].
    apply Rplus_le_compat_r. apply Rmult_le_compat_r; lra. }
  lra.
Qed.

Lemma power_increasing_in_alpha_witness :
  exists v1 v2,
    returns (power 0.1 0.12 (PyInt 1000) 0.01 true) (Fin v1)
    /\ returns (power 0.1 0.12 (PyInt 1000) 0.05 true) (Fin v2)
    /\ v1 <= v2 + 0.000001.
Proof. apply power_increasing_in_alpha; lra || lia. Defined.

(** How the closed form moves with the sample size: up when the effect
    [p_alt - p_null] is positive, down when it is negative. *)
Lemma power_value_size_lt p_null p_alt N M alpha :
  0 < p_null < 1 -> 0 < p_alt < 1 -> 0 < N -> N < M ->
  (p_null < p_alt ->
   power_value p_null p_alt (1 / N) alpha
   < power_value p_null p_alt (1 / M) alpha)
  /\ (p_alt < p_null ->
      power_value p_null p_alt (1 / M) alpha
      < power_value p_null p_alt (1 / N) alpha).
Proof.
  intros H0 H1 HN HNM.
  pose proof (var_pos _ H0) as V0. pose proof (var_pos _ H1) as V1.
  rewrite !power_value_of_size by (trivial; lra).
  assert (Hsq : sqrt N < sqrt M) by (apply sqrt_lt_1_alt; lra).
  assert (Hs1 : 0 < / sqrt (p_null * (1 - p_null) + p_alt * (1 - p_alt)))
    by (apply Rinv_0_lt_compat, sqrt_lt_R0; nra).
  split; intros Hd;
    apply Rplus_lt_compat_l, Ropp_lt_contravar, ndtr_increasing;
    apply Rmult_lt_compat_r; trivial; nra.
Qed.

(** X4.  In the direction the docstring excludes, [p_alt < p_null],
    nothing is raised and [power] does not increase, beyond the tolerance
    [1e-6], as the sample size grows. *)
Theorem power_decreasing_in_n p_null p_alt n m alpha plot :
  0.01 <= p_alt -> p_alt < p_null -> p_null <= 0.99 -> 0 < alpha < 1 ->
  (1 <= n)%Z -> (n <= m)%Z -> (m <= 10 ^ 9)%Z ->
  exists vn vm,
    returns (power p_null p_alt (PyInt n) alpha plot) (Fin vn)
    /\ returns (power p_null p_alt (PyInt m) alpha plot) (Fin vm)
    /\ vm <= vn + 0.000001.
Proof.
  intros Hp0 Hlt Hp1 Ha Hn Hnm _.
  exists (power_value p_null p_alt (1 / IZR n) alpha),
         (power_value p_null p_alt (1 / IZR m) alpha).
  split; [apply power_int_eval; lra || lia |].
  split; [apply power_int_eval; lra || lia |].
  assert (HN : 0 < IZR n) by (apply IZR_lt; lia).
  destruct (Z.eq_dec n m) as [-> | Hne]; [lra |].
  assert (HM : IZR n < IZR m) by (apply IZR_lt; lia).
  assert (H0 : 0 < p_null < 1) by lra. assert (H1 : 0 < p_alt < 1) by lra.
  pose proof (proj2 (power_value_size_lt p_null p_alt (IZR n) (IZR m) alpha
                       H0 H1 HN HM) Hlt).
  lra.
Qed.

Lemma power_decreasing_in_n_witness :
  exists vn vm,
    returns (power 0.12 0.1 (PyInt 1000) 0.05 true) (Fin vn)
    /\ returns (power 0.12 0.1 (PyInt 1001) 0.05 true) (Fin vm)
    /\ vm <= vn + 0.000001.
Proof. apply power_decreasing_in_n; lra || lia. Defined.

Lemma returns_inj {A} (c : Py A) v w : returns c v -> returns c w -> v = w.
Proof.
  intros Hv Hw. specialize (Hv []). rewrite Hw in Hv. now inversion Hv.
Qed.

(** The square root of [size_value]: the sample size solves
    [z_alpha * sd_null - z_beta * sd_alt = (p_alt - p_null) * sqrt n]. *)
Definition size_root (p_null p_alt alpha beta : R) : R :=
  (ndtri (1 - alpha) * sqrt (2 * p_null * (1 - p_null))
   - ndtri beta * sqrt (p_null * (1 - p_null) + p_alt * (1 - p_alt)))
  / (p_alt - p_null).

Lemma size_value_root p_null p_alt alpha beta :
  size_value p_null p_alt alpha beta = size_root p_null p_alt alpha beta ^ 2.
Proof. reflexivity. Qed.

Lemma size_root_pos p_null p_alt alpha beta :
  0 < p_null < 1 -> 0 < p_alt < 1 -> p_null < p_alt ->
  0 < alpha < 1 / 2 -> 0 < beta < 1 / 2 ->
  0 < size_root p_null p_alt alpha beta.
Proof.
  intros H0 H1 Hlt Ha Hb.
  pose proof (var_pos _ H0) as V0. pose proof (var_pos _ H1) as V1.
  unfold size_root.
  assert (Hza : 0 < ndtri (1 - alpha)) by (apply ndtri_pos; lra).
  assert (Hzb : ndtri beta < 0) by (apply ndtri_neg; lra).
  assert (Hsa : 0 < sqrt (2 * p_null * (1 - p_null)))
    by (apply sqrt_lt_R0; nra).
  assert (Hsb : 0 < sqrt (p_null * (1 - p_null) + p_alt * (1 - p_alt)))
    by (apply sqrt_lt_R0; nra).
  apply Rdiv_lt_0_compat; nra.
Qed.

(** X5.  [experiment_size] returns the minimum, as its docstring says: for
    [alpha], [beta] below 0.5, no positive sample size below the one
    returned has a power above [1 - beta], beyond the tolerance [1e-6]. *)
Theorem experiment_size_is_minimal p_null p_alt alpha beta n_star m plot :
  0.01 <= p_null -> p_null < p_alt -> p_alt <= 0.99 ->
  0.01 <= alpha < 1 / 2 -> 0.01 <= beta < 1 / 2 ->
  returns (experiment_size p_null p_alt alpha beta) (Fin n_star) ->
  (1 <= m)%Z -> IZR m < n_star ->
  exists v,
    returns (power p_null p_alt (PyInt m) alpha plot) (Fin v)
    /\ v <= 1 - beta + 0.000001.
Proof.
  intros Hp0 Hlt Hp1 Ha' Hb' Hsize Hm Hmn.
  assert (Ha : 0 < alpha < 1 / 2) by lra.
  assert (Hb : 0 < beta < 1 / 2) by lra.
  assert (H0 : 0 < p_null < 1) by lra. assert (H1 : 0 < p_alt < 1) by lra.
  pose proof (var_pos _ H0) as V0. pose proof (var_pos _ H1) as V1.
  assert (En : Fin n_star
               = Fin (IZR (Zceil (size_value p_null p_alt alpha beta)))).
  { apply (returns_inj _ _ _ Hsize). apply experiment_size_eval; lra. }
  inversion En as [En']. clear En. subst n_star.
  assert (Hlt_sv : IZR m < size_value p_null p_alt alpha beta).
  { apply lt_IZR in Hmn.
    assert (Hle : (m <= Zceil (size_value p_null p_alt alpha beta) - 1)%Z)
      by lia.
    apply IZR_le in Hle. rewrite minus_IZR in Hle.
    pose proof (Zceil_bound (size_value p_null p_alt alpha beta)). lra. }
  assert (HM : 0 < IZR m) by (apply IZR_lt; lia).
  pose proof (size_root_pos p_null p_alt alpha beta H0 H1 Hlt Ha Hb) as Hr.
  rewrite size_value_root in Hlt_sv.
  assert (Hsq : sqrt (IZR m) < size_root p_null p_alt alpha beta).
  { rewrite <- (sqrt_pow2 (size_root p_null p_alt alpha beta)) by lra.
    apply sqrt_lt_1_alt. lra. }
  exists (power_value p_null p_alt (1 / IZR m) alpha).
  split; [apply power_int_eval; lra || lia |].
  rewrite power_value_of_size by trivial.
  assert (Hsb : 0 < sqrt (p_null * (1 - p_null) + p_alt * (1 - p_alt)))
    by (apply sqrt_lt_R0; nra).
  assert (Hrd : size_root p_null p_alt alpha beta * (p_alt - p_null)
                = ndtri (1 - alpha) * sqrt (2 * p_null * (1 - p_null))
                  - ndtri beta
                    * sqrt (p_null * (1 - p_null) + p_alt * (1 - p_alt)))
    by (unfold size_root; field; lra).
  set (s0 := sqrt (2 * p_null * (1 - p_null))) in *.
  set (s1 := sqrt (p_null * (1 - p_null) + p_alt * (1 - p_alt))) in *.
  set (r := size_root p_null p_alt alpha beta) in *.
  assert (Harg : ndtri beta
                 < (ndtri (1 - alpha) * s0
                    - (p_alt - p_null) * sqrt (IZR m)) / s1).
  { apply Rmult_lt_reg_r with s1; trivial.
    unfold Rdiv. rewrite Rmult_assoc, Rinv_l, Rmult_1_r by lra. nra. }
  apply ndtr_increasing in Harg. rewrite ndtr_ndtri in Harg by lra. lra.
Qed.

Lemma experiment_size_is_minimal_witness :
  exists v,
    returns (power 0.1 0.12 (PyInt 2862) 0.05 true) (Fin v)
    /\ v <= 1 - 0.2 + 0.000001.
Proof.
  apply (experiment_size_is_minimal 0.1 0.12 0.05 0.2 2863); try lra.
  - apply experiment_size_scenario.
  - lia.
Defined.

Lemma experiment_size_value_le p_null p_alt alpha beta p_alt' alpha' beta' :
  0 < p_null < 1 -> 0 < p_alt < 1 -> p_alt <> p_null ->
  0 < p_alt' < 1 -> p_alt' <> p_null ->
  0 < alpha < 1 -> 0 < beta < 1 -> 0 < alpha' < 1 -> 0 < beta' < 1 ->
  0 <= size_root p_null p_alt' alpha' beta'
  <= size_root p_null p_alt alpha beta ->
  exists n n',
    returns (experiment_size p_null p_alt alpha beta) (Fin n)
    /\ returns (experiment_size p_null p_alt' alpha' beta') (Fin n')
    /\ n' <= n.
Proof.
  intros H0 H1 Hne H1' Hne' Ha Hb Ha' Hb' Hr.
  exists (IZR (Zceil (size_value p_null p_alt alpha beta))),
         (IZR (Zceil (size_value p_null p_alt' alpha' beta'))).
  split; [now apply experiment_size_eval |].
  split; [now apply experiment_size_eval |].
  apply IZR_le, Zceil_le. rewrite !size_value_root.
  apply pow_incr. exact Hr.
Qed.

(** X7.  For an effect of at least 0.01 and [alpha], [beta] from 0.01 to
    below 0.5, lowering either error rate does not lower the sample size
    [experiment_size] returns, beyond the one unit by which rounding
    before [np.ceil] can move it. *)
Theorem experiment_size_monotone_in_error_rates
  p_null p_alt alpha1 alpha2 beta1 beta2 :
  0.01 <= p_null -> p_null + 0.01 <= p_alt -> p_alt <= 0.99 ->
  0.01 <= alpha1 -> alpha1 <= alpha2 -> alpha2 < 1 / 2 ->
  0.01 <= beta1 -> beta1 <= beta2 -> beta2 < 1 / 2 ->
  exists n1 n2,
    returns (experiment_size p_null p_alt alpha1 beta1) (Fin n1)
    /\ returns (experiment_size p_null p_alt alpha2 beta2) (Fin n2)
    /\ n2 <= n1 + 1.
Proof.
  intros Hp0 Hlt Hp1 Ha1 Ha Ha2 Hb1 Hb Hb2.
  assert (H0 : 0 < p_null < 1) by lra. assert (H1 : 0 < p_alt < 1) by lra.
  pose proof (var_pos _ H0) as V0. pose proof (var_pos _ H1) as V1.
  destruct (experiment_size_value_le p_null p_alt alpha1 beta1
              p_alt alpha2 beta2) as [n1 [n2 [Hn1 [Hn2 Hle]]]]; try lra.
  - split.
    + left. apply size_root_pos; lra.
    + unfold size_root.
      assert (Hza : ndtri (1 - alpha2) <= ndtri (1 - alpha1))
        by (apply ndtri_le; lra).
      assert (Hzb : ndtri beta1 <= ndtri beta2) by (apply ndtri_le; lra).
      assert (Hs0 : 0 < sqrt (2 * p_null * (1 - p_null)))
        by (apply sqrt_lt_R0; nra).
      assert (Hs1 : 0 < sqrt (p_null * (1 - p_null) + p_alt * (1 - p_alt)))
        by (apply sqrt_lt_R0; nra).
      apply Rmult_le_compat_r; [left; apply Rinv_0_lt_compat; lra |].
      apply Rplus_le_compat.
      * apply Rmult_le_compat_r; lra.
      * apply Ropp_le_contravar, Rmult_le_compat_r; lra.
  - exists n1, n2. split; [exact Hn1 | split; [exact Hn2 | lra]].
Qed.

Lemma experiment_size_monotone_in_error_rates_witness :
  exists n1 n2,
    returns (experiment_size 0.1 0.12 0.01 0.1) (Fin n1)
    /\ returns (experiment_size 0.1 0.12 0.05 0.2) (Fin n2)
    /\ n2 <= n1 + 1.
Proof. apply experiment_size_monotone_in_error_rates; lra. Defined.

(** The ratio of the alternative's standard deviation to the effect
    shrinks as the target rate moves away from the baseline. *)
Lemma sd_alt_over_effect_decreasing p0 p1 p2 :
  0 < p0 -> p0 < p1 -> p1 <= p2 -> p2 < 1 ->
  sqrt (p0 * (1 - p0) + p2 * (1 - p2)) / (p2 - p0)
  <= sqrt (p0 * (1 - p0) + p1 * (1 - p1)) / (p1 - p0).
Proof.
  intros Hp0 H01 H12 Hp2.
  set (w1 := p0 * (1 - p0) + p1 * (1 - p1)).
  set (w2 := p0 * (1 - p0) + p2 * (1 - p2)).
  set (a := p1 - p0). set (b := p2 - p0).
  assert (Ha : 0 < a) by (unfold a; lra).
  assert (Hab : a <= b) by (unfold a, b; lra).
  assert (Hb1 : b < 1 - p0) by (unfold b; lra).
  assert (Hw1 : 0 < w1) by (unfold w1; nra).
  assert (Hw2 : 0 < w2) by (unfold w2; nra).
  assert (Hpoly : w2 * (a * a) <= w1 * (b * b)).
  { assert (E : w1 * (b * b) - w2 * (a * a)
                = (b - a) * (2 * (p0 * (1 - p0)) * (a + b)
                             + (1 - 2 * p0) * (a * b)))
      by (unfold w1, w2, a, b; ring).
    assert (Hbr : 0 <= 2 * (p0 * (1 - p0)) * (a + b)
                       + (1 - 2 * p0) * (a * b)).
    { assert (Hv : 0 < p0 * (1 - p0)) by (apply Rmult_lt_0_compat; lra).
      assert (Hab0 : 0 < a * b) by (apply Rmult_lt_0_compat; lra).
      assert (Hva : 0 <= p0 * (1 - p0) * a)
        by (apply Rmult_le_pos; lra).
      assert (Hvb : 0 <= p0 * (1 - p0) * b)
        by (apply Rmult_le_pos; lra).
      destruct (Rle_dec (2 * p0) 1) as [Hs | Hs].
      - assert (0 <= (1 - 2 * p0) * (a * b))
          by (apply Rmult_le_pos; lra).
        lra.
      - assert (Hab' : a * b <= (1 - p0) * a).
        { rewrite (Rmult_comm a b). apply Rmult_le_compat_r; lra. }
        assert (H1 : (2 * p0 - 1) * (a * b)
                     <= (2 * p0 - 1) * ((1 - p0) * a))
          by (apply Rmult_le_compat_l; lra).
        assert (H2 : (2 * p0 - 1) * ((1 - p0) * a)
                     <= 2 * p0 * ((1 - p0) * a)).
        { apply Rmult_le_compat_r; [| lra].
          apply Rmult_le_pos; lra. }
        lra. }
    assert (0 <= (b - a) * (2 * (p0 * (1 - p0)) * (a + b)
                            + (1 - 2 * p0) * (a * b)))
      by (apply Rmult_le_pos; lra).
    lra. }
  assert (Hsq : sqrt w2 * a <= sqrt w1 * b).
  { rewrite <- (sqrt_square a), <- (sqrt_square b) by lra.
    rewrite <- !sqrt_mult by nra.
    now apply sqrt_le_1_alt. }
  apply Rmult_le_reg_r with (a * b); [nra |].
  replace (sqrt w2 / b * (a * b)) with (sqrt w2 * a) by (field; lra).
  replace (sqrt w1 / a * (a * b)) with (sqrt w1 * b) by (field; lra).
  exact Hsq.
Qed.

(** X8.  For [alpha], [beta] from 0.01 to below 0.5, a fixed baseline
    and an effect of at least 0.01, a larger target rate [p_alt] does not
    raise the sample size, beyond the one unit by which rounding before
    [np.ceil] can move it. *)
Theorem experiment_size_monotone_in_effect p_null p_alt1 p_alt2 alpha beta :
  0.01 <= p_null -> p_null + 0.01 <= p_alt1 -> p_alt1 <= p_alt2 ->
  p_alt2 <= 0.99 ->
  0.01 <= alpha < 1 / 2 -> 0.01 <= beta < 1 / 2 ->
  exists n1 n2,
    returns (experiment_size p_null p_alt1 alpha beta) (Fin n1)
    /\ returns (experiment_size p_null p_alt2 alpha beta) (Fin n2)
    /\ n2 <= n1 + 1.
Proof.
  intros Hp0' H01' H12 Hp2' Ha' Hb'.
  assert (Hp0 : 0 < p_null) by lra. assert (H01 : p_null < p_alt1) by lra.
  assert (Hp2 : p_alt2 < 1) by lra.
  assert (Ha : 0 < alpha < 1 / 2) by lra.
  assert (Hb : 0 < beta < 1 / 2) by lra.
  assert (H0 : 0 < p_null < 1) by lra.
  pose proof (var_pos _ H0) as V0.
  destruct (experiment_size_value_le p_null p_alt1 alpha beta
              p_alt2 alpha beta) as [n1 [n2 [Hn1 [Hn2 Hle]]]]; try lra.
  - split.
    + left. apply size_root_pos; lra.
    + unfold size_root.
      assert (Hza : 0 < ndtri (1 - alpha)) by (apply ndtri_pos; lra).
      assert (Hzb : ndtri beta < 0) by (apply ndtri_neg; lra).
      assert (Hs0 : 0 < sqrt (2 * p_null * (1 - p_null)))
        by (apply sqrt_lt_R0; nra).
      pose proof (sd_alt_over_effect_decreasing p_null p_alt1 p_alt2
                    Hp0 H01 H12 Hp2) as Hsd.
      set (s1 := sqrt (p_null * (1 - p_null) + p_alt1 * (1 - p_alt1))) in *.
      set (s2 := sqrt (p_null * (1 - p_null) + p_alt2 * (1 - p_alt2))) in *.
      set (za := ndtri (1 - alpha)) in *. set (zb := ndtri beta) in *.
      set (s0 := sqrt (2 * p_null * (1 - p_null))) in *.
      assert (Hinv : / (p_alt2 - p_null) <= / (p_alt1 - p_null))
        by (apply Rinv_le_contravar; lra).
      replace ((za * s0 - zb * s2) / (p_alt2 - p_null))
        with (za * s0 * / (p_alt2 - p_null)
              + - zb * (s2 / (p_alt2 - p_null))) by (field; lra).
      replace ((za * s0 - zb * s1) / (p_alt1 - p_null))
        with (za * s0 * / (p_alt1 - p_null)
              + - zb * (s1 / (p_alt1 - p_null))) by (field; lra).
      apply Rplus_le_compat.
      * apply Rmult_le_compat_l; [nra | exact Hinv].
      * apply Rmult_le_compat_l; [lra | exact Hsd].
  - exists n1, n2. split; [exact Hn1 | split; [exact Hn2 | lra]].
Qed.

Lemma experiment_size_monotone_in_effect_witness :
  exists n1 n2,
    returns (experiment_size 0.1 0.12 0.05 0.2) (Fin n1)
    /\ returns (experiment_size 0.1 0.15 0.05 0.2) (Fin n2)
    /\ n2 <= n1 + 1.
Proof. apply experiment_size_monotone_in_effect; lra. Defined.

(** ** Edge behaviour: what the unvalidated inputs give *)

Lemma fadd_nan_r a : fadd a NaN = NaN.
Proof. destruct a; reflexivity. Qed.

Lemma fmul_nan_l a : fmul NaN a = NaN.
Proof. destruct a; reflexivity. Qed.

Lemma cdf_nan d : cdf d NaN = NaN.
Proof. unfold cdf. destruct (flt (Fin 0) (scale d)); reflexivity. Qed.

Lemma ppf_bad_scale l s q : flt (Fin 0) s = false -> ppf (norm l s) q = NaN.
Proof. intros H. unfold ppf. cbn [scale]. now rewrite H. Qed.

Lemma ppf_bad_q l s q : q < 0 \/ 1 < q -> ppf (norm l s) q = NaN.
Proof.
  intros Hq. unfold ppf.
  destruct (flt (Fin 0) (scale (norm l s)) && feq (loc (norm l s)) (loc (norm l s)));
    [| reflexivity].
  destruct (Rlt_dec 0 q), (Rlt_dec q 1), (Req_EM_T q 1), (Req_EM_T q 0);
    try reflexivity; lra.
Qed.

Lemma np_sqrt_nonpos x : x <= 0 -> flt (Fin 0) (np_sqrt (Fin x)) = false.
Proof.
  intros [Hx | ->].
  - now rewrite np_sqrt_neg.
  - rewrite np_sqrt_Fin, sqrt_0 by lra. cbn [flt].
    destruct (Rlt_dec 0 0); [lra | reflexivity].
Qed.

(** The steps of [power] without the plot, from the reciprocal of the
    sample size on. *)
Lemma power_no_plot p_null p_alt n alpha inv :
  (forall fig, one_over n fig = (Ok inv, fig)) ->
  returns (power p_null p_alt n alpha false)
    (fsub (Fin 1)
       (cdf (norm (Fin (p_alt - p_null))
               (np_sqrt (fmul inv
                  (Fin (p_null * (1 - p_null) + p_alt * (1 - p_alt))))))
          (ppf (norm (Fin 0)
                  (np_sqrt (fmul inv (Fin (2 * p_null * (1 - p_null))))))
             (1 - alpha)))).
Proof.
  intros Hone fig. unfold power, bind. cbv zeta.
  rewrite Hone. rewrite Hone. reflexivity.
Qed.

(** X9.  A float64 sample size never raises.  Unless it is a positive
    number the result is [nan]: zero (where a Python [int] zero raises),
    negative numbers, the infinities and [nan]. *)
Theorem power_float_sample_size p_null p_alt f alpha :
  0 < p_null < 1 -> 0 < p_alt < 1 -> 0 < alpha < 1 ->
  (forall x, f = Fin x -> x <= 0) ->
  returns (power p_null p_alt (NpFloat64 f) alpha false) NaN.
Proof.
  intros H0 H1 Ha Hf fig.
  pose proof (var_pos _ H0) as V0. pose proof (var_pos _ H1) as V1.
  rewrite (power_no_plot p_null p_alt (NpFloat64 f) alpha (fdiv (Fin 1) f))
    by reflexivity.
  destruct f as [x | | |].
  - destruct (Hf x eq_refl) as [Hx | ->].
    + rewrite fdiv_Fin by lra. cbn [fmul].
      assert (Hinv : 1 / x < 0).
      { unfold Rdiv. rewrite Rmult_1_l. now apply Rinv_lt_0_compat. }
      rewrite !np_sqrt_neg by nra. reflexivity.
    + rewrite fdiv_Fin_zero, Rsign_pos by lra. cbn [inf_signed fmul].
      rewrite !Rsign_pos by nra. cbn [inf_signed np_sqrt].
      unfold ppf. cbn [scale loc flt]. rewrite feq_Fin_refl. cbn [andb].
      destruct (Rlt_dec 0 (1 - alpha)); [| lra].
      destruct (Rlt_dec (1 - alpha) 1); [| lra].
      cbn [fmul]. destruct (Rsign (ndtri (1 - alpha))); reflexivity.
  - cbn [fdiv fmul].
    rewrite ppf_bad_scale
      by (apply np_sqrt_nonpos; lra).
    now rewrite cdf_nan.
  - cbn [fdiv fmul].
    rewrite ppf_bad_scale
      by (apply np_sqrt_nonpos; lra).
    now rewrite cdf_nan.
  - reflexivity.
Qed.

Lemma power_float_sample_size_witness :
  returns (power 0.1 0.12 (NpFloat64 (Fin 0)) 0.05 false) NaN.
Proof.
  apply power_float_sample_size; try lra.
  intros x Hx. inversion Hx. lra.
Defined.

Lemma ppf_end_points l s :
  0 < s ->
  ppf (norm (Fin l) (Fin s)) 1 = PInf /\ ppf (norm (Fin l) (Fin s)) 0 = NInf.
Proof.
  intros Hs. unfold ppf. cbn [scale loc].
  rewrite flt_Fin_true, feq_Fin_refl by assumption. cbn [andb fmul].
  rewrite Rsign_pos by assumption. cbn [CompOpp inf_signed fadd].
  split.
  - destruct (Rlt_dec 0 1); [| lra]. destruct (Rlt_dec 1 1); [lra |].
    destruct (Req_EM_T 1 1); [reflexivity | lra].
  - destruct (Rlt_dec 0 0); [lra |].
    destruct (Req_EM_T 0 0); [reflexivity | lra].
Qed.

Lemma cdf_infinities l s :
  0 < s ->
  cdf (norm (Fin l) (Fin s)) PInf = Fin 1
  /\ cdf (norm (Fin l) (Fin s)) NInf = Fin 0.
Proof.
  intros Hs. unfold cdf. cbn [scale loc].
  rewrite flt_Fin_true by assumption. cbn [fsub fopp fadd fdiv].
  destruct (Rlt_dec s 0); [lra |]. split; reflexivity.
Qed.

(** X10.  The end points of [alpha] are accepted: for probabilities in
    [0.01, 0.99] and an integer [n] from 1 to [10 ^ 9], with [alpha = 0]
    the critical value is [inf] and the power is 0; with [alpha = 1] it
    is [-inf] and the power is 1. *)
Theorem power_at_alpha_end_points p_null p_alt n :
  0.01 <= p_null <= 0.99 -> 0.01 <= p_alt <= 0.99 ->
  (1 <= n <= 10 ^ 9)%Z ->
  returns (power p_null p_alt (PyInt n) 0 false) (Fin 0)
  /\ returns (power p_null p_alt (PyInt n) 1 false) (Fin 1).
Proof.
  intros H0' H1' [Hn _].
  assert (H0 : 0 < p_null < 1) by lra. assert (H1 : 0 < p_alt < 1) by lra.
  pose proof (var_pos _ H0) as V0. pose proof (var_pos _ H1) as V1.
  pose proof (inv_int_pos n Hn) as Hinv.
  assert (Hs0 : 0 < sqrt (1 / IZR n * (2 * p_null * (1 - p_null))))
    by (apply sqrt_lt_R0; nra).
  assert (Hs1 : 0 < sqrt (1 / IZR n
                          * (p_null * (1 - p_null) + p_alt * (1 - p_alt))))
    by (apply sqrt_lt_R0; nra).
  split; intros fig;
    rewrite (power_no_plot p_null p_alt (PyInt n) _ (Fin (1 / IZR n)))
      by (now apply one_over_int);
    cbn [fmul]; rewrite !np_sqrt_Fin by nra.
  - replace (1 - 0) with 1 by ring.
    rewrite (proj1 (ppf_end_points _ _ Hs0)), (proj1 (cdf_infinities _ _ Hs1)).
    cbn [fsub fopp fadd]. do 2 f_equal. ring.
  - replace (1 - 1) with 0 by ring.
    rewrite (proj2 (ppf_end_points _ _ Hs0)), (proj2 (cdf_infinities _ _ Hs1)).
    cbn [fsub fopp fadd]. do 2 f_equal. ring.
Qed.

Lemma power_at_alpha_end_points_witness :
  returns (power 0.1 0.12 (PyInt 1000) 0 false) (Fin 0)
  /\ returns (power 0.1 0.12 (PyInt 1000) 1 false) (Fin 1).
Proof. apply power_at_alpha_end_points; lra || lia. Defined.

(** X11.  An [alpha] above 1, or below 0 by [1e-6] or more, is not
    rejected: [1 - alpha] is outside [0, 1], the quantile is [nan] and
    so is the result.  (A negative [alpha] nearer to 0 than [2 ^ -54] is
    absorbed by [1 - alpha] and treated as 0.) *)
Theorem power_alpha_out_of_range p_null p_alt n alpha :
  (n <> 0)%Z -> alpha <= - 0.000001 \/ 1 < alpha ->
  returns (power p_null p_alt (PyInt n) alpha false) NaN.
Proof.
  intros Hn Ha fig.
  rewrite (power_no_plot p_null p_alt (PyInt n) alpha (Fin (1 / IZR n))).
  - rewrite ppf_bad_q by lra. now rewrite cdf_nan.
  - intros fig'. unfold one_over.
    destruct (Z.eqb_spec n 0); [contradiction | reflexivity].
Qed.

Lemma power_alpha_out_of_range_witness :
  returns (power 0.1 0.12 (PyInt 1000) 1.5 false) NaN.
Proof. apply power_alpha_out_of_range; [lia | lra]. Defined.

(** X12.  A baseline rate outside the open interval (0,1) is not
    rejected: the null standard error is zero or [nan], scipy refuses the
    scale, and the result is [nan]. *)
Theorem power_baseline_out_of_range p_null p_alt n alpha :
  (1 <= n)%Z -> p_null <= 0 \/ 1 <= p_null ->
  returns (power p_null p_alt (PyInt n) alpha false) NaN.
Proof.
  intros Hn Hp fig.
  pose proof (inv_int_pos n Hn) as Hinv.
  rewrite (power_no_plot p_null p_alt (PyInt n) alpha (Fin (1 / IZR n)))
    by (now apply one_over_int).
  cbn [fmul]. rewrite ppf_bad_scale; [now rewrite cdf_nan |].
  apply np_sqrt_nonpos.
  assert (2 * p_null * (1 - p_null) <= 0) by (destruct Hp; nra).
  nra.
Qed.

Lemma power_baseline_out_of_range_witness :
  returns (power 0 0.12 (PyInt 1000) 0.05 false) NaN.
Proof. apply power_baseline_out_of_range; [lia | lra]. Defined.

Lemma ppf_stats_norm_bad q : q < 0 \/ 1 < q -> ppf stats_norm q = NaN.
Proof. intros Hq. unfold stats_norm. now apply ppf_bad_q. Qed.

(** X13.  Error rates outside [0, 1] are not rejected by
    [experiment_size]: for [beta] below 0 or above 1, and for [alpha]
    above 1 or below 0 by [1e-6] or more, the quantile is [nan] and so is
    the result. *)
Theorem experiment_size_rate_out_of_range p_null p_alt alpha beta :
  (alpha <= - 0.000001 \/ 1 < alpha) \/ (beta < 0 \/ 1 < beta) ->
  returns (experiment_size p_null p_alt alpha beta) NaN.
Proof.
  intros [Ha | Hb] fig; unfold experiment_size, ret; cbv zeta; cbn [fst].
  - rewrite (ppf_stats_norm_bad (1 - alpha)) by lra. reflexivity.
  - rewrite (ppf_stats_norm_bad beta) by lra.
    unfold fsub. rewrite fmul_nan_l. cbn [fopp]. rewrite fadd_nan_r.
    reflexivity.
Qed.

Lemma experiment_size_rate_out_of_range_witness :
  returns (experiment_size 0.1 0.12 0.05 1.2) NaN.
Proof. apply experiment_size_rate_out_of_range. right. lra. Defined.

(** X14.  A zero error rate is accepted by [experiment_size]: the
    quantile is infinite and the sample size returned is [inf]. *)
Theorem experiment_size_zero_error_rate p_null p_alt alpha beta :
  0 < p_null < 1 -> 0 < p_alt < 1 ->
  0 <= alpha < 1 -> 0 <= beta < 1 -> alpha = 0 \/ beta = 0 ->
  returns (experiment_size p_null p_alt alpha beta) PInf.
Proof.
  intros H0 H1 Ha Hb Hzero fig.
  pose proof (var_pos _ H0) as V0. pose proof (var_pos _ H1) as V1.
  assert (Hs0 : 0 < sqrt (2 * p_null * (1 - p_null)))
    by (apply sqrt_lt_R0; nra).
  assert (Hs1 : 0 < sqrt (p_null * (1 - p_null) + p_alt * (1 - p_alt)))
    by (apply sqrt_lt_R0; nra).
  assert (H01 : (0 < 1)%R) by lra.
  pose proof (ppf_end_points 0 1 H01) as [Hq1 Hq0]. fold stats_norm in Hq1, Hq0.
  assert (Hnull : fmul (ppf stats_norm (1 - alpha))
                    (Fin (sqrt (2 * p_null * (1 - p_null))))
                  = PInf
                  \/ exists t, fmul (ppf stats_norm (1 - alpha))
                                 (Fin (sqrt (2 * p_null * (1 - p_null))))
                               = Fin t /\ beta = 0).
  { destruct (Req_dec alpha 0) as [-> | Hne].
    - left. replace (1 - 0) with 1 by ring. rewrite Hq1.
      cbn [fmul]. now rewrite Rsign_pos.
    - right. rewrite stats_norm_ppf by lra. cbn [fmul].
      eexists. split; [reflexivity | lra]. }
  assert (Halt : fopp (fmul (ppf stats_norm beta)
                         (Fin (sqrt (p_null * (1 - p_null)
                                     + p_alt * (1 - p_alt)))))
                 = PInf
                 \/ exists t, fopp (fmul (ppf stats_norm beta)
                                      (Fin (sqrt (p_null * (1 - p_null)
                                                  + p_alt * (1 - p_alt)))))
                              = Fin t /\ beta <> 0).
  { destruct (Req_dec beta 0) as [-> | Hne].
    - left. rewrite Hq0. cbn [fmul]. now rewrite Rsign_pos.
    - right. rewrite stats_norm_ppf by lra. cbn [fmul fopp].
      eexists. split; [reflexivity | assumption]. }
  unfold experiment_size, ret. cbv zeta. cbn [fst].
  rewrite !np_sqrt_Fin by nra. unfold fsub.
  assert (Hnum : fadd (fmul (ppf stats_norm (1 - alpha))
                         (Fin (sqrt (2 * p_null * (1 - p_null)))))
                   (fopp (fmul (ppf stats_norm beta)
                            (Fin (sqrt (p_null * (1 - p_null)
                                        + p_alt * (1 - p_alt))))))
                 = PInf).
  { destruct Hnull as [-> | [t [-> Hb0]]], Halt as [-> | [u [-> Hbn]]];
      try reflexivity. contradiction. }
  rewrite Hnum. cbn [fdiv].
  destruct (Rlt_dec (p_alt - p_null) 0); reflexivity.
Qed.

Lemma experiment_size_zero_error_rate_witness :
  returns (experiment_size 0.1 0.12 0 0.2) PInf.
Proof. apply experiment_size_zero_error_rate; lra. Defined.

(** ** The pyplot log *)

Lemma np_linspace_length start stop num :
  (1 <= num)%nat -> List.length (np_linspace start stop num) = num.
Proof.
  intros Hnum. unfold np_linspace.
  rewrite length_app, length_map, length_seq. cbn [List.length]. lia.
Qed.

(** X15.  Without the plot, or when the call raises, nothing is sent to
    pyplot: the log is left as it was. *)
Theorem power_leaves_pyplot_alone p_null p_alt n alpha fig :
  snd (power p_null p_alt n alpha false fig) = fig
  /\ (forall plot,
        power p_null p_alt (PyInt 0) alpha plot fig
        = (Raise ZeroDivisionError, fig)).
Proof.
  split; [| reflexivity].
  unfold power, bind, one_over, ret. cbv zeta.
  destruct n as [z | f]; [destruct (Z.eqb z 0) |]; reflexivity.
Qed.

(** X16.  With the plot, a call that does not raise sends exactly nine
    calls to pyplot, in the order of the source and ending with [show];
    both curves and both fill masks are sampled on one grid of 201
    points. *)
Theorem power_plot_calls p_null p_alt n alpha fig :
  n <> PyInt 0 ->
  exists x y_null y_alt p_crit ymax where_null where_alt,
    snd (power p_null p_alt n alpha true fig)
    = fig ++ [plt_plot x y_null; plt_plot x y_alt;
              plt_vlines p_crit (Fin 0) ymax "--";
              plt_fill_between x y_null (Fin 0) where_null 0.5;
              plt_fill_between x y_alt (Fin 0) where_alt 0.5;
              plt_legend ["null"%string; "alt"%string];
              plt_xlabel "difference"; plt_ylabel "density"; plt_show]
    /\ List.length x = 201%nat
    /\ List.length y_null = 201%nat /\ List.length y_alt = 201%nat
    /\ List.length where_null = 201%nat /\ List.length where_alt = 201%nat.
Proof.
  intros Hn.
  assert (Hone : exists inv, forall fig', one_over n fig' = (Ok inv, fig')).
  { destruct n as [z | f].
    - exists (Fin (1 / IZR z)). intros fig'. unfold one_over.
      destruct (Z.eqb_spec z 0); [subst; contradiction | reflexivity].
    - now exists (fdiv (Fin 1) f). }
  destruct Hone as [inv Hone].
  unfold power, bind. cbv zeta. rewrite Hone. rewrite Hone.
  unfold power_plot, bind, plt, ret. cbv zeta. cbn [fst snd].
  rewrite <- !app_assoc. cbn [app].
  do 7 eexists. split; [reflexivity |].
  rewrite !length_map, np_linspace_length by lia. repeat split.
Qed.

Lemma power_plot_calls_witness :
  exists x y_null y_alt p_crit ymax where_null where_alt,
    snd (power 0.1 0.12 (PyInt 1000) 0.05 true [])
    = [] ++ [plt_plot x y_null; plt_plot x y_alt;
             plt_vlines p_crit (Fin 0) ymax "--";
             plt_fill_between x y_null (Fin 0) where_null 0.5;
             plt_fill_between x y_alt (Fin 0) where_alt 0.5;
             plt_legend ["null"%string; "alt"%string];
             plt_xlabel "difference"; plt_ylabel "density"; plt_show]
    /\ List.length x = 201%nat
    /\ List.length y_null = 201%nat /\ List.length y_alt = 201%nat
    /\ List.length where_null = 201%nat /\ List.length where_alt = 201%nat.
Proof. apply power_plot_calls. discriminate. Defined.

(** ** The values quoted in the comments of the source *)

Lemma ndtr_0_4444 : 0.6716 <= ndtr 0.4444.
Proof. ndtr_bound 3%nat (4444 # 10000)%Q (6716 # 10000)%Q. Qed.

Lemma ndtr_0_4446 : ndtr 0.4446 <= 0.6718.
Proof. ndtr_bound 3%nat (4446 # 10000)%Q (6718 # 10000)%Q. Qed.

Lemma ndtr_0_8419 : ndtr 0.8419 <= 0.8001.
Proof. ndtr_bound 4%nat (8419 # 10000)%Q (8001 # 10000)%Q. Qed.

(** The standardised critical value of the worked example at a sample
    size whose square root lies in [[lo, hi]]. *)
Lemma example_critical_value N lo hi :
  0 < N -> 0 <= lo -> 0 <= hi -> lo * lo <= N <= hi * hi ->
  1.6449 * 0.424265 - 0.02 * lo < 0 ->
  exists t,
    power_value 0.1 0.12 (1 / N) 0.05 = ndtr (- t)
    /\ (1.6448 * 0.424264 - 0.02 * hi) / 0.442266 <= t
    /\ t <= (1.6449 * 0.424265 - 0.02 * lo) / 0.442267.
Proof.
  intros HN Hlo Hhi HNb Hnum.
  rewrite power_value_of_size by lra.
  replace (1 - 0.05) with 0.95 by lra.
  pose proof ndtri_0_95 as [Hz1l Hz1u].
  assert (Hs0 : 0.424264 <= sqrt (2 * 0.1 * (1 - 0.1)) <= 0.424265)
    by (apply sqrt_enclosure; lra).
  assert (Hs1 : 0.442266
                <= sqrt (0.1 * (1 - 0.1) + 0.12 * (1 - 0.12)) <= 0.442267)
    by (apply sqrt_enclosure; lra).
  pose proof (sqrt_enclosure lo hi N Hlo Hhi HNb) as HsN.
  set (z1 := ndtri 0.95) in *.
  set (s0 := sqrt (2 * 0.1 * (1 - 0.1))) in *.
  set (s1 := sqrt (0.1 * (1 - 0.1) + 0.12 * (1 - 0.12))) in *.
  set (sN := sqrt N) in *.
  assert (Hp : 1.6448 * 0.424264 <= z1 * s0 <= 1.6449 * 0.424265)
    by (split; apply Rmult_le_compat; lra).
  set (t := (z1 * s0 - (0.12 - 0.1) * sN) / s1).
  assert (E : t * s1 = z1 * s0 - (0.12 - 0.1) * sN)
    by (unfold t; field; lra).
  exists t. split; [rewrite ndtr_opp; ring |].
  assert (Hgen : forall c, c <= 0 -> c * 0.442266 <= t * s1 -> c <= t).
  { intros c Hc Hct. apply Rmult_le_reg_r with s1; [lra |].
    apply Rle_trans with (c * 0.442266); [| exact Hct].
    assert (0 <= - c * (s1 - 0.442266)) by (apply Rmult_le_pos; lra).
    lra. }
  split.
  - apply Hgen; lra.
  - apply Rmult_le_reg_r with s1; [lra |].
    set (c := (1.6449 * 0.424265 - 0.02 * lo) / 0.442267).
    assert (Hc : c < 0) by (unfold c; lra).
    apply Rle_trans with (c * 0.442267); [unfold c; lra |].
    assert (0 <= - c * (0.442267 - s1)) by (apply Rmult_le_pos; lra).
    lra.
Qed.

(** X17.  The values the comments of the source quote for its worked
    example: the power is about 67% at [n = 2000] and a little over 80%
    at [n = 2863]. *)
Theorem power_values_of_the_comments plot :
  (exists v,
     returns (power 0.1 0.12 (PyInt 2000) 0.05 plot) (Fin v)
     /\ 0.6716 <= v <= 0.6718)
  /\ (exists v,
        returns (power 0.1 0.12 (PyInt 2863) 0.05 plot) (Fin v)
        /\ 0.8 <= v <= 0.8001).
Proof.
  split.
  - exists (power_value 0.1 0.12 (1 / 2000) 0.05).
    split; [apply (power_int_eval 0.1 0.12 2000); lra || lia |].
    destruct (example_critical_value 2000 44.7213 44.7214)
      as [t [-> [Hl Hu]]]; try lra.
    assert (H1 : 0.4444 <= - t) by lra. assert (H2 : - t <= 0.4446) by lra.
    apply ndtr_le in H1, H2.
    pose proof ndtr_0_4444. pose proof ndtr_0_4446. lra.
  - exists (power_value 0.1 0.12 (1 / 2863) 0.05).
    split; [apply (power_int_eval 0.1 0.12 2863); lra || lia |].
    split.
    + replace 0.8 with (1 - 0.2) by lra.
      apply power_value_at_size; try lra.
      apply size_value_scenario.
    + destruct (example_critical_value 2863 53.5070 53.5071)
        as [t [-> [Hl _]]]; try lra.
      assert (H2 : - t <= 0.8419) by lra.
      apply ndtr_le in H2. pose proof ndtr_0_8419. lra.
Qed.
